(** * TAQO: the regression scenario and the runner

    A shallow embedding of [src/runner.py] ([parse_ddls] and the report
    dispatch of the main program) and of [src/tests/regression/scenario.py]
    ([RegressionTest.evaluate_queries_for_version] and
    [RegressionTest.evaluate]), together with the properties the design
    document states about them.

    Python sets are [gset]s, the query objects live in a store indexed by
    references (the two collection phases mutate the same objects), and the
    collaborators (database, connection, model, report) are an oracle that
    decides, from the history of calls, whether a call raises and what it
    returns. *)

From Stdlib Require Import QArith Lqa Ascii String.
From stdpp Require Import base gmap sets list strings.

#[local] Open Scope string_scope.

(** ** [src/runner.py]: the DDL step selector *)

Module Runner.

(** [config.DDLStep]: the enumeration [parse_ddls] maps tokens to. *)
Inductive DDLStep : Type := DATABASE | CREATE | IMPORT | ANALYZE | DROP.

#[export] Instance DDLStep_eq_dec : EqDecision DDLStep.
Proof. solve_decision. Defined.

Definition DDLStep_to_nat (d : DDLStep) : nat :=
  match d with
  | DATABASE => 0 | CREATE => 1 | IMPORT => 2 | ANALYZE => 3 | DROP => 4
  end.

Definition DDLStep_of_nat (n : nat) : option DDLStep :=
  match n with
  | 0 => Some DATABASE | 1 => Some CREATE | 2 => Some IMPORT
  | 3 => Some ANALYZE | 4 => Some DROP | _ => None
  end.

#[export] Instance DDLStep_countable : Countable DDLStep.
Proof.
  apply (inj_countable DDLStep_to_nat DDLStep_of_nat).
  intros []; reflexivity.
Defined.

(** The word each step is selected by. *)
Definition token (d : DDLStep) : string :=
  match d with
  | DATABASE => "database"
  | CREATE => "create"
  | IMPORT => "import"
  | ANALYZE => "analyze"
  | DROP => "drop"
  end.

(** Python's [t in s] on two [str]: [t] occurs in [s] as a substring. *)
Fixpoint str_in (t s : string) : bool :=
  String.prefix t s ||
  match s with
  | EmptyString => false
  | String _ s' => str_in t s'
  end.

(** [result.add(step)] guarded by [if tok in ddl_ops]. *)
Definition add_if (ddl_ops : string) (d : DDLStep) (result : gset DDLStep)
  : gset DDLStep :=
  if str_in (token d) ddl_ops then {[ d ]} ∪ result else result.

(** [parse_ddls], statement by statement (the order of the five tests is
    the source's: database, create, import, drop, analyze). *)
Definition parse_ddls (ddl_ops : string) : gset DDLStep :=
  let result : gset DDLStep := ∅ in
  if String.eqb ddl_ops "none" then result
  else
    let result := add_if ddl_ops DATABASE result in
    let result := add_if ddl_ops CREATE result in
    let result := add_if ddl_ops IMPORT result in
    let result := add_if ddl_ops DROP result in
    let result := add_if ddl_ops ANALYZE result in
    result.

(** What "the token appears in [s]" means. *)
Definition occurs_in (t s : string) : Prop :=
  ∃ pre post : string, s = pre +:+ t +:+ post.

(** Does the character [c] occur in [s]? *)
Fixpoint has_char (c : ascii) (s : string) : bool :=
  match s with
  | EmptyString => false
  | String x s' => if Ascii.ascii_dec x c then true else has_char c s'
  end.

End Runner.

(** ** [src/runner.py]: the main program, from line 253 on *)

Module Main.

#[local] Open Scope list_scope.

(** The parsed command line, as far as the two actions read it. *)
Record Args : Type := mkArgs {
  action : string;
  type : option string;
  results : option string;
  pg_results : option string;
  v1_results : option string;
  v2_results : option string;
  default_results : option string;
  default_analyze_results : option string;
  ta_results : option string;
  ta_analyze_results : option string;
  stats_results : option string;
  stats_analyze_results : option string;
  output : option string;
  yes : bool
}.

(** The lines handed to [config.logger.info]. *)
Inductive LogLine : Type :=
| Blank
| Separator
| Banner
| CollectingResults          (* "Collecting results for model: ..." *)
| ConfigurationHeader        (* "Configuration:" *)
| ConfigurationLine (line : string)
| EvaluatingScenario
| GenerationReport (ty : option string)
| AllowedDeviation.

(** A value passed to a report: [None], or what the loader returned for a
    path. *)
Inductive Loaded : Type :=
| PyNone
| QueriesFrom (path : option string).

Inductive Report : Type :=
| TaqoReport | ScoreReport | ScoreXlsReport | RegressionReport
| RegressionXlsReport | ComparisonReport | SelectivityReport.

Inductive Effect : Type :=
| LogInfo (line : LogLine)
| PrintLine (text : string)
| Input (prompt : string)
| ScenarioEvaluate
| NewReport (r : Report)                                (* the constructor *)
| GetQueriesFromPreviousResult (path : option string)   (* the loader *)
| GenerateReport (r : Report) (inputs : list Loaded).

#[export] Instance LogLine_eq_dec : EqDecision LogLine.
Proof. solve_decision. Defined.
#[export] Instance Loaded_eq_dec : EqDecision Loaded.
Proof. solve_decision. Defined.
#[export] Instance Report_eq_dec : EqDecision Report.
Proof. solve_decision. Defined.
#[export] Instance Effect_eq_dec : EqDecision Effect.
Proof. solve_decision. Defined.

Inductive Exn : Type :=
| Failure (e : Effect)     (* the collaborator called by [e] raised *)
| AttributeError           (* "Unknown test type defined ..." *)
| SystemExit (code : Z).   (* [exit(1)] *)

Inductive Result (A : Type) : Type :=
| Ok (a : A)
| Raise (e : Exn).
Arguments Ok {A} a.
Arguments Raise {A} e.

(** The collaborators: which calls raise, given the calls made so far, and
    the lines of [str(config)]. *)
Record World : Type := mkWorld {
  raises : list Effect → Effect → bool;
  config_lines : list string
}.

Definition M (A : Type) : Type := list Effect → list Effect * Result A.

Definition ret {A} (a : A) : M A := λ t, (t, Ok a).

Definition bind {A B} (m : M A) (f : A → M B) : M B :=
  λ t, match m t with
       | (t', Ok a) => f a t'
       | (t', Raise e) => (t', Raise e)
       end.

Definition raise {A} (e : Exn) : M A := λ t, (t, Raise e).

#[export] Instance M_ret : MRet M := @ret.
#[export] Instance M_bind : MBind M := λ A B f m, bind m f.

(** A call that cannot raise in a way the program depends on: logging. *)
Definition info (line : LogLine) : M unit := λ t, (t ++ [LogInfo line], Ok ()).

Definition call (w : World) (e : Effect) : M unit :=
  λ t, if raises w t e then (t ++ [e], Raise (Failure e)) else (t ++ [e], Ok ()).

(** [loader.get_queries_from_previous_result(path)]. *)
Definition load (w : World) (path : option string) : M Loaded :=
  call w (GetQueriesFromPreviousResult path);; ret (QueriesFrom path).

(** Python's truth value of an optional string argument. *)
Definition truthy (a : option string) : bool :=
  match a with
  | None => false
  | Some s => negb (String.eqb s "")
  end.

(** [loader.get_queries_from_previous_result(p) if p else None]. *)
Definition load_if (w : World) (path : option string) : M Loaded :=
  if truthy path then load w path else ret PyNone.

Fixpoint info_lines (lines : list string) : M unit :=
  match lines with
  | [] => ret ()
  | l :: rest => info (ConfigurationLine l);; info_lines rest
  end.

(** The [collect] branch, lines 259-275. *)
Definition collect_action (w : World) (args : Args) : M unit :=
  info Blank;;
  info CollectingResults;;
  info ConfigurationHeader;;
  info_lines (config_lines w);;
  info Separator;;
  (if output args is None
   then call w (PrintLine "ARGUMENTS VALIDATION ERROR: --output arg is required for collect task");;
        raise (SystemExit 1)
   else ret ());;
  (if yes args then ret ()
   else call w (Input "Validate configuration carefully and press Enter..."));;
  info EvaluatingScenario;;
  call w ScenarioEvaluate.

(** [yb_queries = load(results); pg_queries = load(pg_results) if pg_results
    else None; report(yb_queries, pg_queries)], as the taqo, score,
    score_xls and comparison branches have it. *)
Definition yb_pg_report (w : World) (args : Args) (r : Report) (construct : bool)
  : M unit :=
  (if construct then call w (NewReport r) else ret ());;
  yb_queries ← load w (results args);
  pg_queries ← load_if w (pg_results args);
  call w (GenerateReport r [yb_queries; pg_queries]).

(** The regression and regression_xls branches. *)
Definition v1_v2_report (w : World) (args : Args) (r : Report) : M unit :=
  call w (NewReport r);;
  v1_queries ← load w (v1_results args);
  v2_queries ← load w (v2_results args);
  call w (GenerateReport r [v1_queries; v2_queries]).

(** The selectivity branch. *)
Definition selectivity_report (w : World) (args : Args) : M unit :=
  call w (NewReport SelectivityReport);;
  default_queries ← load w (default_results args);
  default_analyze_queries ← load w (default_analyze_results args);
  ta_queries ← load w (ta_results args);
  ta_analyze_queries ← load w (ta_analyze_results args);
  stats_queries ← load w (stats_results args);
  stats_analyze_queries ← load w (stats_analyze_results args);
  call w (GenerateReport SelectivityReport
            [default_queries; default_analyze_queries; ta_queries;
             ta_analyze_queries; stats_queries; stats_analyze_queries]).

Definition type_is (ty : option string) (name : string) : bool :=
  match ty with
  | Some s => String.eqb s name
  | None => false
  end.

(** The [if]/[elif] chain on [args.type], lines 282-335. *)
Definition dispatch (w : World) (args : Args) : M unit :=
  if type_is (type args) "taqo" then yb_pg_report w args TaqoReport false
  else if type_is (type args) "score" then yb_pg_report w args ScoreReport false
  else if type_is (type args) "score_xls" then yb_pg_report w args ScoreXlsReport false
  else if type_is (type args) "regression" then v1_v2_report w args RegressionReport
  else if type_is (type args) "regression_xls" then v1_v2_report w args RegressionXlsReport
  else if type_is (type args) "comparison" then yb_pg_report w args ComparisonReport true
  else if type_is (type args) "selectivity" then selectivity_report w args
  else raise AttributeError.

(** The [report] branch, lines 277-335. *)
Definition report_action (w : World) (args : Args) : M unit :=
  info Blank;;
  info (GenerationReport (type args));;
  info AllowedDeviation;;
  info Separator;;
  dispatch w args.

(** Lines 253-335: the banner, then the action. *)
Definition main (w : World) (args : Args) : M unit :=
  info Separator;;
  info Banner;;
  if String.eqb (action args) "collect" then collect_action w args
  else if String.eqb (action args) "report" then report_action w args
  else ret ().

Definition run {A} (m : M A) : list Effect * Result A := m [].

(** The values of [--type] the dispatch knows. *)
Definition report_types : list string :=
  ["taqo"; "score"; "score_xls"; "regression"; "regression_xls";
   "comparison"; "selectivity"].

(** Report work: constructing a report, loading results, generating. *)
Definition report_work (e : Effect) : bool :=
  match e with
  | NewReport _ | GetQueriesFromPreviousResult _ | GenerateReport _ _ => true
  | _ => false
  end.

(** A command line with nothing but the action and the type. *)
Definition bare_args (a : string) (ty : option string) : Args :=
  {| action := a; type := ty; results := None; pg_results := None;
     v1_results := None; v2_results := None; default_results := None;
     default_analyze_results := None; ta_results := None;
     ta_analyze_results := None; stats_results := None;
     stats_analyze_results := None; output := None; yes := false |}.

(** Collaborators that never raise. *)
Definition quiet : World := {| raises := λ _ _, false; config_lines := [] |}.

(** *** Reading traces *)

(** The log lines every [collect] run starts with. *)
Definition collect_preamble (w : World) : list Effect :=
  [LogInfo Separator; LogInfo Banner; LogInfo Blank; LogInfo CollectingResults;
   LogInfo ConfigurationHeader]
  ++ ((λ l, LogInfo (ConfigurationLine l)) <$> config_lines w)
  ++ [LogInfo Separator].

(** The log lines every [report] run starts with. *)
Definition report_preamble (args : Args) : list Effect :=
  [LogInfo Separator; LogInfo Banner; LogInfo Blank;
   LogInfo (GenerationReport (type args)); LogInfo AllowedDeviation;
   LogInfo Separator].

(** Calls that can raise: everything but logging. *)
Definition is_call (e : Effect) : bool :=
  match e with
  | LogInfo _ => false
  | _ => true
  end.

(** Every call of [evs], made after [h], returned normally. *)
Fixpoint all_returned (w : World) (h evs : list Effect) : Prop :=
  match evs with
  | [] => True
  | e :: rest =>
      (is_call e = true → raises w h e = false) ∧ all_returned w (h ++ [e]) rest
  end.

(** Every call of [evs] but possibly the last returned normally. *)
Fixpoint returned_but_last (w : World) (h evs : list Effect) : Prop :=
  match evs with
  | [] => True
  | e :: rest =>
      match rest with
      | [] => True
      | _ :: _ =>
          (is_call e = true → raises w h e = false) ∧
          returned_but_last w (h ++ [e]) rest
      end
  end.

(** [m] stops at the first call that raises, and returns normally only
    when no call raised. *)
Definition fail_stop {A} (w : World) (m : M A) : Prop :=
  ∀ t, ∃ evs,
    (m t).1 = t ++ evs ∧
    returned_but_last w t evs ∧
    ∀ a, (m t).2 = Ok a → all_returned w t evs.

(** The report and the inputs that the dispatch passes to it, by type. *)
Definition pg_input (args : Args) : Loaded :=
  if truthy (pg_results args) then QueriesFrom (pg_results args) else PyNone.

Definition yb_pg_inputs (args : Args) : list Loaded :=
  [QueriesFrom (results args); pg_input args].

Definition v1_v2_inputs (args : Args) : list Loaded :=
  [QueriesFrom (v1_results args); QueriesFrom (v2_results args)].

Definition selectivity_inputs (args : Args) : list Loaded :=
  [QueriesFrom (default_results args); QueriesFrom (default_analyze_results args);
   QueriesFrom (ta_results args); QueriesFrom (ta_analyze_results args);
   QueriesFrom (stats_results args); QueriesFrom (stats_analyze_results args)].

(** A command line for [collect]. *)
Definition collect_args (out : option string) (confirmed : bool) : Args :=
  {| action := "collect"; type := None; results := None; pg_results := None;
     v1_results := None; v2_results := None; default_results := None;
     default_analyze_results := None; ta_results := None;
     ta_analyze_results := None; stats_results := None;
     stats_analyze_results := None; output := out; yes := confirmed |}.

(** A command line for a taqo report without PostgreSQL results, and
    collaborators whose loader raises. *)
Definition taqo_args : Args :=
  {| action := "report"; type := Some "taqo"; results := Some "yb.json";
     pg_results := Some ""; v1_results := None; v2_results := None;
     default_results := None; default_analyze_results := None;
     ta_results := None; ta_analyze_results := None; stats_results := None;
     stats_analyze_results := None; output := None; yes := false |}.

Definition broken_loader : World :=
  {| raises := λ _ e, match e with
                      | GetQueriesFromPreviousResult _ => true
                      | _ => false
                      end;
     config_lines := [] |}.

End Main.

(** ** [src/tests/regression/scenario.py]: the regression scenario *)

Module Scenario.

#[local] Open Scope list_scope.

(** A query object of the model.  [query] is its text; [execution_plan] and
    [optimizer_score] are the attributes the collection loop assigns;
    [execution_time] stands for whatever [calculate_avg_execution_time]
    leaves on the object (that function is a collaborator from [utils]). *)
Record Query : Type := mkQuery {
  query : string;
  execution_plan : string;
  optimizer_score : Q;
  execution_time : list Q
}.

(** Query objects are handled by reference: [Ref] indexes the store,
    [Conn] names a connection object returned by [connect_to_db]. *)
Definition Ref : Type := nat.
Definition Conn : Type := nat.

(** Calls to collaborators, in the order of appearance in the source. *)
Inductive Event : Type :=
| StartDb
| ConnectToDb (c : Conn)                 (* the handle the call returns *)
| Cursor (c : Conn)                      (* conn.cursor().__enter__ *)
| CursorExit (c : Conn)                  (* the with-block's __exit__ *)
| EvaluateSql (c : Conn) (sql : string)
| FetchOne (c : Conn)
| FetchAll (c : Conn)
| GetTestModel
| CreateTables (c : Conn)
| GetQueries
| PrintProgress (text : string) (counter total : nat)
| GetExplain (q : Ref)
| GetOptimizerScore (plan : string)
| CalculateAvgExecutionTime (c : Conn) (q : Ref) (num_retries : Z)
| Close (c : Conn)
| SwitchVersion
| DefineVersion (first_version second_version : string)
| AddQuery (first_version_query second_version_query : Ref)
| BuildReport
| PublishReport (name : string)
| StopDb.

#[export] Instance Event_eq_dec : EqDecision Event.
Proof. solve_decision. Defined.

Inductive Exn : Type :=
| Failure (e : Event)            (* the collaborator called by [e] raised *)
| AttributeError (msg : string)  (* attribute access on [None] *)
| Dangling (q : Ref).            (* a reference outside the store *)

(** The collaborators.  Each answer may depend on the calls made so far. *)
Record World : Type := mkWorld {
  raises : list Event → Event → bool;
  fetchone : list Event → string;              (* cur.fetchone()[0] *)
  fetchall : list Event → list string;         (* str(item[0]) per row *)
  get_queries : list Event → list Query;       (* model.get_queries(...) *)
  get_explain : Query → string;                (* query.get_explain() *)
  get_optimizer_score_from_plan : string → Q;
  calculate_avg_execution_time : list Event → Query → Z → Query;
  num_retries : Z                              (* int(Config().num_retries) *)
}.

(** The state the scenario runs in: the calls made so far, the store of
    query objects, the number of connections opened, and the local
    variable [conn] of [evaluate] (which its [finally] block reads). *)
Record State : Type := mkState {
  trace : list Event;
  heap : list Query;
  opened : nat;
  conn : option Conn
}.

Definition initial : State :=
  {| trace := []; heap := []; opened := 0; conn := None |}.

Inductive Result (A : Type) : Type :=
| Ok (a : A)
| Raise (e : Exn).
Arguments Ok {A} a.
Arguments Raise {A} e.

(** State and exceptions. *)
Definition M (A : Type) : Type := State → State * Result A.

Definition ret {A} (a : A) : M A := λ s, (s, Ok a).

Definition bind {A B} (m : M A) (f : A → M B) : M B :=
  λ s, match m s with
       | (s', Ok a) => f a s'
       | (s', Raise e) => (s', Raise e)
       end.

Definition raise {A} (e : Exn) : M A := λ s, (s, Raise e).

#[export] Instance M_ret : MRet M := @ret.
#[export] Instance M_bind : MBind M := λ A B f m, bind m f.

(** [try: body finally: fin].  The finaliser always runs; an exception it
    raises replaces the outcome of the body. *)
Definition try_finally {A} (body : M A) (fin : M unit) : M A :=
  λ s, match body s with
       | (s1, r) =>
           match fin s1 with
           | (s2, Ok _) => (s2, r)
           | (s2, Raise e) => (s2, Raise e)
           end
       end.

(** [try: body except Exception as e: handler(e)]. *)
Definition try_except {A} (body : M A) (handler : Exn → M A) : M A :=
  λ s, match body s with
       | (s1, Ok a) => (s1, Ok a)
       | (s1, Raise e) => handler e s1
       end.

Definition record (e : Event) (s : State) : State :=
  {| trace := trace s ++ [e]; heap := heap s; opened := opened s; conn := conn s |}.

Definition history : M (list Event) := λ s, (s, Ok (trace s)).

(** A call to a collaborator: it is attempted (and recorded), and raises
    when the world says so. *)
Definition call (w : World) (e : Event) : M unit :=
  λ s, if raises w (trace s) e
       then (record e s, Raise (Failure e))
       else (record e s, Ok ()).

(** Reading and writing a query object through its reference. *)
Definition deref (q : Ref) : M Query :=
  λ s, match heap s !! q with
       | Some o => (s, Ok o)
       | None => (s, Raise (Dangling q))
       end.

Definition assign (q : Ref) (o : Query) : M unit :=
  λ s, ({| trace := trace s; heap := <[q := o]> (heap s);
           opened := opened s; conn := conn s |}, Ok ()).

(** [model.get_queries(...)] hands out fresh objects. *)
Definition allocate (objs : list Query) : M (list Ref) :=
  λ s, ({| trace := trace s; heap := heap s ++ objs;
           opened := opened s; conn := conn s |},
        Ok (seq (length (heap s)) (length objs))).

Definition get_conn : M (option Conn) := λ s, (s, Ok (conn s)).

Definition set_conn (c : Conn) : M unit :=
  λ s, ({| trace := trace s; heap := heap s;
           opened := opened s; conn := Some c |}, Ok ()).

(** [self.connect_to_db()]: a new connection object on every success. *)
Definition connect_to_db (w : World) : M Conn :=
  λ s, let c := opened s in
       if raises w (trace s) (ConnectToDb c)
       then (record (ConnectToDb c) s, Raise (Failure (ConnectToDb c)))
       else ({| trace := trace s ++ [ConnectToDb c]; heap := heap s;
                opened := S c; conn := conn s |}, Ok c).

(** [with conn.cursor() as cur: body]. *)
Definition with_cursor {A} (w : World) (c : Conn) (body : M A) : M A :=
  call w (Cursor c) ;;
  try_finally body (call w (CursorExit c)).

(** ['\n'.join(rows)]. *)
Fixpoint join_lines (rows : list string) : string :=
  match rows with
  | [] => ""
  | r :: rest =>
      match rest with
      | [] => r
      | _ :: _ => r +:+ String "010"%char (join_lines rest)
      end
  end.

(** Is [b] a continuation byte (10xxxxxx) of a character in UTF-8? *)
Definition continuation (b : ascii) : bool :=
  match b with
  | Ascii _ _ _ _ _ _ b6 b7 => b7 && negb b6
  end.

(** [s[:n]]: the first [n] characters of a [str].  The text is held in
    UTF-8, so the bytes that continue a character stay with it. *)
Fixpoint slice_to (n : nat) (s : string) : string :=
  match s with
  | EmptyString => EmptyString
  | String b rest =>
      if continuation b then String b (slice_to n rest)
      else
        match n with
        | O => EmptyString
        | S n' => String b (slice_to n' rest)
        end
  end.

Definition set_execution_plan (o : Query) (plan : string) : Query :=
  {| query := query o; execution_plan := plan;
     optimizer_score := optimizer_score o; execution_time := execution_time o |}.

Definition set_optimizer_score (o : Query) (score : Q) : Query :=
  {| query := query o; execution_plan := execution_plan o;
     optimizer_score := score; execution_time := execution_time o |}.

(** The [try] block of the loop body, lines 21-32. *)
Definition evaluate_query (w : World) (c : Conn) (total counter : nat)
    (first_version_query : Ref) (version_queries : list Ref) : M (list Ref) :=
  o ← deref first_version_query;
  call w (PrintProgress (slice_to 40 (query o)) counter total) ;;
  call w (GetExplain first_version_query) ;;
  call w (EvaluateSql c (get_explain w o)) ;;
  call w (FetchAll c) ;;
  h ← history;
  o ← deref first_version_query;
  assign first_version_query (set_execution_plan o (join_lines (fetchall w h))) ;;
  o ← deref first_version_query;
  call w (GetOptimizerScore (execution_plan o)) ;;
  assign first_version_query
    (set_optimizer_score o (get_optimizer_score_from_plan w (execution_plan o))) ;;
  call w (CalculateAvgExecutionTime c first_version_query (num_retries w)) ;;
  h ← history;
  o ← deref first_version_query;
  assign first_version_query (calculate_avg_execution_time w h o (num_retries w)) ;;
  ret (version_queries ++ [first_version_query]).

(** The [for] loop, lines 19-36: [except Exception as e: raise e] and
    [finally: counter += 1] around the body. *)
Fixpoint evaluate_loop (w : World) (c : Conn) (total : nat)
    (queries : list Ref) (counter : nat) (version_queries : list Ref)
  : M (list Ref) :=
  match queries with
  | [] => ret version_queries
  | first_version_query :: rest =>
      version_queries ←
        try_finally
          (try_except
             (evaluate_query w c total counter first_version_query version_queries)
             (λ e, raise e))
          (ret ());
      evaluate_loop w c total rest (counter + 1) version_queries
  end.

(** [RegressionTest.evaluate_queries_for_version(conn, queries)]. *)
Definition evaluate_queries_for_version (w : World) (c : Conn)
    (queries : list Ref) : M (list Ref) :=
  with_cursor w c (evaluate_loop w c (length queries) queries 1 []).

(** [with conn.cursor() as cur: evaluate_sql(cur, 'SELECT VERSION();');
    version = cur.fetchone()[0]]. *)
Definition select_version (w : World) (c : Conn) : M string :=
  with_cursor w c
    (call w (EvaluateSql c "SELECT VERSION();") ;;
     call w (FetchOne c) ;;
     h ← history;
     ret (fetchone w h)).

(** [for a, b in zip(first, second): self.report.add_query(a, b)]. *)
Fixpoint add_queries (w : World) (pairs : list (Ref * Ref)) : M unit :=
  match pairs with
  | [] => ret ()
  | (first_version_query, second_version_query) :: rest =>
      call w (AddQuery first_version_query second_version_query) ;;
      add_queries w rest
  end.

(** [conn.close()], where [conn] may still be [None]. *)
Definition close_conn (w : World) : M unit :=
  c ← get_conn;
  match c with
  | Some c => call w (Close c)
  | None => raise (AttributeError "'NoneType' object has no attribute 'close'")
  end.

(** The [try] block of [evaluate], lines 46-76. *)
Definition evaluate_body (w : World) : M unit :=
  c ← connect_to_db w;
  set_conn c ;;
  first_version ← select_version w c;
  call w GetTestModel ;;
  call w (CreateTables c) ;;
  call w GetQueries ;;
  h ← history;
  queries ← allocate (get_queries w h);
  first_version_queries ← evaluate_queries_for_version w c queries;
  close_conn w ;;
  call w SwitchVersion ;;
  c ← connect_to_db w;
  set_conn c ;;
  second_version ← select_version w c;
  call w (DefineVersion first_version second_version) ;;
  second_version_queries ← evaluate_queries_for_version w c queries;
  add_queries w (zip first_version_queries second_version_queries).

(** The [finally] block of [evaluate], lines 78-86. *)
Definition evaluate_finally (w : World) : M unit :=
  call w BuildReport ;;
  call w (PublishReport "regression") ;;
  close_conn w ;;
  call w StopDb.

(** [RegressionTest.evaluate]. *)
Definition evaluate (w : World) : M unit :=
  call w StartDb ;;
  try_finally (evaluate_body w) (evaluate_finally w).

Definition run {A} (m : M A) : State * Result A := m initial.

(** *** Reading traces *)

(** The connection a call goes through, if any. *)
Definition conn_of (e : Event) : option Conn :=
  match e with
  | ConnectToDb c | Cursor c | CursorExit c | EvaluateSql c _ | FetchOne c
  | FetchAll c | CreateTables c | CalculateAvgExecutionTime c _ _ | Close c =>
      Some c
  | _ => None
  end.

(** The comparisons handed to the report. *)
Definition is_add_query (e : Event) : bool :=
  match e with
  | AddQuery _ _ => true
  | _ => false
  end.

(** Running [m] from any state only appends calls that satisfy [P], and
    leaves the connection counter, the variable [conn] and the number of
    query objects alone. *)
Definition emits {A} (P : Event → Prop) (m : M A) : Prop :=
  ∀ s, ∃ evs,
    trace (m s).1 = trace s ++ evs ∧ Forall P evs ∧
    opened (m s).1 = opened s ∧ conn (m s).1 = conn s ∧
    length (heap (m s).1) = length (heap s).

(** Every call of [evs], made after the history [h], returned normally. *)
Fixpoint all_returned (w : World) (h evs : list Event) : Prop :=
  match evs with
  | [] => True
  | e :: rest => raises w h e = false ∧ all_returned w (h ++ [e]) rest
  end.

(** Every call of [evs] but possibly the last returned normally. *)
Fixpoint returned_but_last (w : World) (h evs : list Event) : Prop :=
  match evs with
  | [] => True
  | e :: rest =>
      match rest with
      | [] => True
      | _ :: _ => raises w h e = false ∧ returned_but_last w (h ++ [e]) rest
      end
  end.

(** [m] swallows no exception: when it returns normally, every call it made
    returned normally. *)
Definition strict {A} (w : World) (m : M A) : Prop :=
  ∀ s, ∃ evs,
    trace (m s).1 = trace s ++ evs ∧
    ∀ a, (m s).2 = Ok a → all_returned w (trace s) evs.

(** [m] stops at the first call that raises: it makes no call after it,
    and returns normally only when no call raised. *)
Definition fail_stop {A} (w : World) (m : M A) : Prop :=
  ∀ s, ∃ evs,
    trace (m s).1 = trace s ++ evs ∧
    returned_but_last w (trace s) evs ∧
    ∀ a, (m s).2 = Ok a → all_returned w (trace s) evs.

(** [m] never resets the variable [conn] to [None]. *)
Definition keeps_conn {A} (m : M A) : Prop :=
  ∀ s, conn s ≠ None → conn (m s).1 ≠ None.

(** The calls made for one query inside the cursor of connection [c]. *)
Definition per_query (c : Conn) (e : Event) : Prop :=
  match e with
  | PrintProgress _ _ _ | GetExplain _ | GetOptimizerScore _ => True
  | EvaluateSql c' _ | FetchAll c' | CalculateAvgExecutionTime c' _ _ => c' = c
  | _ => False
  end.

(** [m] changes no query object outside [refs], and adds or removes
    none. *)
Definition touches_only {A} (refs : list Ref) (m : M A) : Prop :=
  ∀ s,
    length (heap (m s).1) = length (heap s) ∧
    ∀ r, r ∉ refs → heap (m s).1 !! r = heap s !! r.

(** The pairs handed to [report.add_query] among some calls, in order. *)
Definition pairs_of (evs : list Event) : list (Ref * Ref) :=
  omap (λ e, match e with
             | AddQuery a b => Some (a, b)
             | _ => None
             end) evs.

(** The progress lines among some calls: their counters and totals. *)
Definition progress_of (evs : list Event) : list (nat * nat) :=
  omap (λ e, match e with
             | PrintProgress _ counter total => Some (counter, total)
             | _ => None
             end) evs.

(** The statements of [evaluate]'s [try] block before the version switch,
    lines 46-59, returning the variables the rest reads. *)
Definition before_switch (w : World) : M (string * list Ref * list Ref) :=
  c ← connect_to_db w;
  set_conn c;;
  first_version ← select_version w c;
  call w GetTestModel;;
  call w (CreateTables c);;
  call w GetQueries;;
  h ← history;
  queries ← allocate (get_queries w h);
  first_version_queries ← evaluate_queries_for_version w c queries;
  close_conn w;;
  ret (first_version, queries, first_version_queries).

(** The statements after [self.switch_version()], lines 63-76. *)
Definition after_switch (w : World) (first_version : string)
    (queries first_version_queries : list Ref) : M unit :=
  c ← connect_to_db w;
  set_conn c;;
  second_version ← select_version w c;
  call w (DefineVersion first_version second_version);;
  second_version_queries ← evaluate_queries_for_version w c queries;
  add_queries w (zip first_version_queries second_version_queries).

(** What may be called before the switch: not the switch, no comparison
    handed to the report, and connection 0 only. *)
Definition first_phase (e : Event) : Prop :=
  e ≠ SwitchVersion ∧ (∀ a b, e ≠ AddQuery a b) ∧
  ∀ c, conn_of e = Some c → c = 0.

(** What may be called after the switch: not the switch again, and
    connection 1 only, but for closing a connection. *)
Definition second_phase (e : Event) : Prop :=
  e ≠ SwitchVersion ∧ ∀ c, conn_of e = Some c → c = 1 ∨ e = Close c.

(** What may be called after the switch when the pairs handed to the report
    are [pairs]. *)
Definition reporting (pairs : list (Ref * Ref)) (e : Event) : Prop :=
  second_phase e ∧ ∀ a b, e = AddQuery a b → (a, b) ∈ pairs.

(** Calls through connection [c] alone, and neither the switch, a connect,
    a close nor a call of the report. *)
Definition through (c : Conn) (e : Event) : Prop :=
  e ≠ SwitchVersion ∧ (∀ c', e ≠ Close c') ∧ (∀ c', e ≠ ConnectToDb c') ∧
  (∀ a b, e ≠ AddQuery a b) ∧
  ∀ c', conn_of e = Some c' → c' = c.

(** The calls of the [finally] block. *)
Definition finalising (e : Event) : Prop :=
  e = BuildReport ∨ e = PublishReport "regression" ∨ e = StopDb ∨
  ∃ c, e = Close c.

End Scenario.

(** ** Concrete worlds, to run the scenario on *)

Module Worlds.
Import Scenario.

#[local] Open Scope list_scope.

(** Has the version switch happened? *)
Definition switched (h : list Event) : bool :=
  bool_decide (SwitchVersion ∈ h).

Definition fresh_query (text : string) : Query :=
  {| query := text; execution_plan := ""; optimizer_score := 0;
     execution_time := [] |}.

Definition set_execution_time (o : Query) (t : list Q) : Query :=
  {| query := query o; execution_plan := execution_plan o;
     optimizer_score := optimizer_score o; execution_time := t |}.

(** The plans the two versions answer with. *)
Definition plan_v1 : string := join_lines ["Index Scan"; "cost=1"].
Definition plan_v2 : string := join_lines ["Seq Scan"; "cost=2"].

(** A database that answers differently before and after the switch, with
    the calls in [failing] raising. *)
Definition world (failing : Event → bool) (texts : list string) : World :=
  {| raises := λ _ e, failing e;
     fetchone := λ h, if switched h then "version 2" else "version 1";
     fetchall := λ h, if switched h then ["Seq Scan"; "cost=2"]
                      else ["Index Scan"; "cost=1"];
     get_queries := λ _, fresh_query <$> texts;
     get_explain := λ o, "EXPLAIN " +:+ query o;
     get_optimizer_score_from_plan := λ plan, inject_Z (Z.of_nat (String.length plan));
     calculate_avg_execution_time := λ h o _,
       set_execution_time o (if switched h then [2 # 1] else [1 # 1]);
     num_retries := 5 |}.

(** Nothing raises. *)
Definition healthy : World := world (λ _, false) ["SELECT 1"; "SELECT 2"].

(** The first [connect_to_db] raises. *)
Definition no_connection : World :=
  world (λ e, bool_decide (e = ConnectToDb 0)) ["SELECT 1"; "SELECT 2"].

(** Executing the first of two queries raises. *)
Definition first_query_fails : World :=
  world (λ e, bool_decide (e = EvaluateSql 0 "EXPLAIN SELECT 1"))
        ["SELECT 1"; "SELECT 2"].

(** One query, nothing raises. *)
Definition one_query : World := world (λ _, false) ["SELECT 1"].

(** A state in which connection 0 is open and the two queries are in the
    store. *)
Definition two_queries : State :=
  {| trace := []; heap := fresh_query <$> ["SELECT 1"; "SELECT 2"];
     opened := 1; conn := Some 0 |}.

(** One collection phase of [healthy], on connection [c]. *)
Definition healthy_phase (c : Conn) (plan : string) : list Event :=
  [Cursor c;
   PrintProgress "SELECT 1" 1 2; GetExplain 0; EvaluateSql c "EXPLAIN SELECT 1";
   FetchAll c; GetOptimizerScore plan; CalculateAvgExecutionTime c 0 5;
   PrintProgress "SELECT 2" 2 2; GetExplain 1; EvaluateSql c "EXPLAIN SELECT 2";
   FetchAll c; GetOptimizerScore plan; CalculateAvgExecutionTime c 1 5;
   CursorExit c].

(** The calls of [healthy] before the version switch, and after it. *)
Definition healthy_before : list Event :=
  [StartDb; ConnectToDb 0; Cursor 0; EvaluateSql 0 "SELECT VERSION();";
   FetchOne 0; CursorExit 0; GetTestModel; CreateTables 0; GetQueries]
  ++ healthy_phase 0 plan_v1 ++ [Close 0].

Definition healthy_after : list Event :=
  [ConnectToDb 1; Cursor 1; EvaluateSql 1 "SELECT VERSION();"; FetchOne 1;
   CursorExit 1; DefineVersion "version 1" "version 2"]
  ++ healthy_phase 1 plan_v2
  ++ [AddQuery 0 0; AddQuery 1 1; BuildReport; PublishReport "regression";
      Close 1; StopDb].

End Worlds.

(** ** The sample collector (design document, section 4.2)

    [utils.calculate_avg_execution_time], which [scenario.py] calls for every
    query, is not part of the sources at hand. *)

Module Collector.

#[local] Open Scope list_scope.

(** One timed run: its elapsed time, or the error it raised. *)
Inductive ExecutionSample : Type :=
| Elapsed (seconds : Q)
| Failed.

(** The database under the collector: the outcome of the [k]-th timed
    execution issued on the connection. *)
Definition Executions : Type := nat → ExecutionSample.

(** The outcome of collecting one query: how many timed executions were
    issued, and the samples retained in the aggregate. *)
Record Collected : Type := mkCollected {
  issued : nat;
  retained : list Q
}.

(** Modelled from the spec: the warmup part of step 2 of section 4.2, in
    place of the missing [utils.calculate_avg_execution_time].  "The first
    [num_warmup] samples are discarded unconditionally": whatever they
    return, [num_warmup] executions are issued and nothing is kept. *)
Fixpoint warmup (db : Executions) (num_warmup : nat) (k : nat) : nat :=
  match num_warmup with
  | O => k
  | S w => match db k with Elapsed _ | Failed => warmup db w (S k) end
  end.

(** Modelled from the spec: the measured part of step 2 of section 4.2, in
    place of the missing [utils.calculate_avg_execution_time].  "Execute the
    timed query [num_warmup + num_retries] times sequentially": after the
    warmup, [num_retries] executions follow one another; the timing of one
    that returned is retained, and one that raised leaves no sample, so
    that "exactly [r] (or fewer, on failed retries) samples" are retained
    (section 8).  [k] is the number of executions issued so far, [acc] the
    samples retained so far. *)
Fixpoint measure (db : Executions) (num_retries : nat) (k : nat) (acc : list Q)
  : Collected :=
  match num_retries with
  | O => {| issued := k; retained := acc |}
  | S r =>
      match db k with
      | Elapsed t => measure db r (S k) (acc ++ [t])
      | Failed => measure db r (S k) acc
      end
  end.

(** Modelled from the spec: step 2 of section 4.2, warmup then the measured
    samples, in place of the missing [utils.calculate_avg_execution_time]. *)
Definition collect (db : Executions) (num_warmup num_retries : nat) : Collected :=
  measure db num_retries (warmup db num_warmup 0) [].

(** How many of the executions [from, from + n) raise. *)
Fixpoint failures (db : Executions) (from n : nat) : nat :=
  match n with
  | O => 0
  | S n' =>
      match db from with
      | Failed => S (failures db (S from) n')
      | Elapsed _ => failures db (S from) n'
      end
  end.

(** The timings of the executions [from, from + n), failed ones left out. *)
Fixpoint timings (db : Executions) (from n : nat) : list Q :=
  match n with
  | O => []
  | S n' =>
      match db from with
      | Elapsed t => t :: timings db (S from) n'
      | Failed => timings db (S from) n'
      end
  end.

(** A database on which the first execution raises and every later one
    takes one second. *)
Definition flaky_once : Executions :=
  λ k, match k with O => Failed | S _ => Elapsed 1 end.

End Collector.

(** ** The regression comparator (design document, section 4.4)

    [tests.regression.report], which receives the pairs of results from
    [scenario.py], is not part of the sources at hand. *)

Module Comparator.

#[local] Open Scope Q_scope.

(** The thresholds of the configuration the comparator reads. *)
Record Config : Type := mkConfig {
  skip_percentage_delta : Q;
  skip_timeout_delta : Q;
  test_query_timeout : Q
}.

(** The aggregate for one query in one version: its plan, its score and the
    retained samples. *)
Record QueryResult : Type := mkQueryResult {
  plan : string;
  score : option Q;
  samples : list Q
}.

Inductive Classification : Type := IMPROVED | REGRESSED | UNCHANGED | SKIPPED.

#[export] Instance Classification_eq_dec : EqDecision Classification.
Proof. solve_decision. Defined.

Record ComparisonResult : Type := mkComparisonResult {
  reference : QueryResult;
  candidate : QueryResult;
  delta : option Q;               (* [None] when no delta was computed *)
  classification : Classification
}.

Definition Qsum (l : list Q) : Q := foldr Qplus 0 l.

(** Modelled from the spec: the aggregated timing of section 4.2, step 3
    ("aggregate retained sample timings ... using the mean"), in place of
    the missing aggregation code. *)
Definition timing (r : QueryResult) : Q :=
  Qsum (samples r) / inject_Z (Z.of_nat (length (samples r))).

Definition Qlt_bool (x y : Q) : bool := negb (Qle_bool y x).

(** Modelled from the spec: rule 1 of section 4.4, "failed to execute (no
    samples retained)", in place of the missing comparator. *)
Definition failed (r : QueryResult) : bool :=
  match samples r with nil => true | cons _ _ => false end.

(** Modelled from the spec: the test of rule 2 of section 4.4, "aggregated
    timing exceeds [test_query_timeout] within [skip_timeout_delta]
    tolerance", in place of the missing comparator: the timing is above the
    timeout less the tolerance. *)
Definition timed_out (cfg : Config) (r : QueryResult) : bool :=
  Qlt_bool (test_query_timeout cfg - skip_timeout_delta cfg) (timing r).

(** Modelled from the spec: the delta of rule 3 of section 4.4,
    [(candidate.timing - reference.timing) / reference.timing], in place of
    the missing comparator. *)
Definition timing_delta (ref cand : QueryResult) : Q :=
  (timing cand - timing ref) / timing ref.

(** Modelled from the spec: the classification by thresholds of rule 3 of
    section 4.4, in place of the missing comparator. *)
Definition classify (cfg : Config) (d : Q) : Classification :=
  if Qlt_bool (skip_percentage_delta cfg) d then REGRESSED
  else if Qlt_bool d (- skip_percentage_delta cfg) then IMPROVED
  else UNCHANGED.

(** Modelled from the spec: [compare] of section 4.4, the three rules in
    their order, in place of the missing comparator of
    [tests.regression.report]. *)
Definition compare (cfg : Config) (ref cand : QueryResult) : ComparisonResult :=
  if failed ref || failed cand then
    {| reference := ref; candidate := cand; delta := None; classification := SKIPPED |}
  else if timed_out cfg ref || timed_out cfg cand then
    {| reference := ref; candidate := cand; delta := None; classification := SKIPPED |}
  else
    let d := timing_delta ref cand in
    {| reference := ref; candidate := cand; delta := Some d;
       classification := classify cfg d |}.

(** Swapping the two sides exchanges IMPROVED and REGRESSED. *)
Definition inverse (c : Classification) : Classification :=
  match c with
  | IMPROVED => REGRESSED
  | REGRESSED => IMPROVED
  | UNCHANGED => UNCHANGED
  | SKIPPED => SKIPPED
  end.

(** The two deltas are exact negations of each other. *)
Definition negated_deltas (x y : ComparisonResult) : Prop :=
  match delta x, delta y with
  | Some d, Some d' => d' == - d
  | _, _ => False
  end.

(** The defaults of [runner.py]: 5 percent, one second, 1200 seconds. *)
Definition default_config : Config :=
  {| skip_percentage_delta := 5 # 100; skip_timeout_delta := 1;
     test_query_timeout := 1200 |}.

(** A result with a single retained sample. *)
Definition timed (t : Q) : QueryResult :=
  {| plan := ""; score := None; samples := cons t nil |}.

End Comparator.

(** * Properties *)

(** ** The DDL step selector *)

Section ParseDdls.
Import Runner.

Lemma prefix_occurs (t s : string) :
  String.prefix t s = true ↔ ∃ post, s = t +:+ post.
Proof.
  revert s. induction t as [|a t IH]; intros s; simpl.
  - split; [intros _; by exists s | by destruct s].
  - destruct s as [|b s].
    + split; [discriminate | intros [post H]; discriminate H].
    + simpl. destruct (Ascii.ascii_dec a b) as [->|Hne].
      * rewrite IH. split; intros [post H]; exists post.
        -- by rewrite H.
        -- by injection H.
      * split; [discriminate | intros [post H]; injection H; congruence].
Qed.

Lemma str_in_occurs (t s : string) : str_in t s = true ↔ occurs_in t s.
Proof.
  induction s as [|b s IH]; cbn [str_in].
  - rewrite orb_false_r, prefix_occurs. split.
    + intros [post H]. by exists "", post.
    + intros [pre [post H]]. destruct pre; [by exists post | discriminate H].
  - rewrite orb_true_iff, prefix_occurs, IH. split.
    + intros [[post H]|[pre [post H]]].
      * by exists "", post.
      * exists (String b pre), post. simpl. by rewrite H.
    + intros [pre [post H]]. destruct pre as [|c pre]; simpl in H.
      * left. by exists post.
      * right. injection H as _ H. by exists pre, post.
Qed.

Lemma none_has_no_token (d : DDLStep) : str_in (token d) "none" = false.
Proof. by destruct d. Qed.

Lemma elem_of_add_if s d d' (r : gset DDLStep) :
  d' ∈ add_if s d r ↔ (d' = d ∧ str_in (token d) s = true) ∨ d' ∈ r.
Proof.
  unfold add_if. destruct (str_in (token d) s) eqn:E.
  - rewrite elem_of_union, elem_of_singleton. intuition congruence.
  - intuition congruence.
Qed.

Lemma elem_of_parse_ddls (s : string) (d : DDLStep) :
  d ∈ parse_ddls s ↔ s ≠ "none" ∧ str_in (token d) s = true.
Proof.
  unfold parse_ddls. destruct (String.eqb_spec s "none") as [->|Hne].
  - rewrite elem_of_empty. intuition congruence.
  - rewrite !elem_of_add_if, elem_of_empty. split.
    + intros H. split; [done|]. intuition congruence.
    + intros [_ H]. destruct d; intuition.
Qed.

(** C7: [parse_ddls "none"] is the empty set, and for every string [s] a
    step is in [parse_ddls s] exactly when [s] is not the literal "none" and
    the step's token occurs in [s]; since no token occurs in "none", the
    result is in every case exactly the set of steps whose token occurs in
    [s].  Whatever else [s] holds is ignored, and the function is total: no
    string makes it raise. *)
Theorem parse_ddls_spec :
  parse_ddls "none" = ∅ ∧
  (∀ (s : string) (d : DDLStep),
      d ∈ parse_ddls s ↔ s ≠ "none" ∧ occurs_in (token d) s) ∧
  (∀ (s : string) (d : DDLStep), d ∈ parse_ddls s ↔ occurs_in (token d) s).
Proof.
  split; [reflexivity|]. split; intros s d; rewrite elem_of_parse_ddls, str_in_occurs.
  - reflexivity.
  - split; [tauto|]. intros H. split; [|done].
    intros ->. apply str_in_occurs in H. by rewrite none_has_no_token in H.
Qed.

End ParseDdls.

(** ** The report dispatch of the main program *)

Section ReportDispatch.
Import Main.

#[local] Open Scope list_scope.

Lemma type_is_false (ty : option string) (name : string) :
  ty ≠ Some name → type_is ty name = false.
Proof.
  destruct ty as [s|]; simpl; [|done].
  intros H. destruct (String.eqb_spec s name); congruence.
Qed.

Lemma dispatch_unknown (w : World) (args : Args) :
  (∀ name, name ∈ report_types → type args ≠ Some name) →
  dispatch w args = raise AttributeError.
Proof.
  intros H. unfold dispatch.
  rewrite !type_is_false; [done|..]; apply H; unfold report_types;
    repeat (first [apply list_elem_of_here | apply list_elem_of_further]).
Qed.

(** C8: in every report invocation whose [--type] is none of taqo, score,
    score_xls, regression, regression_xls, comparison and selectivity (or
    is missing), the program raises [AttributeError] after its log lines:
    no report is constructed, no result file is loaded and no report is
    generated. *)
Theorem unknown_report_type_is_fatal (w : World) (args : Args) :
  action args = "report" →
  (∀ name, name ∈ report_types → type args ≠ Some name) →
  run (main w args) =
    ([LogInfo Separator; LogInfo Banner; LogInfo Blank;
      LogInfo (GenerationReport (type args)); LogInfo AllowedDeviation;
      LogInfo Separator],
     Raise AttributeError) ∧
  Forall (λ e, report_work e = false) (run (main w args)).1.
Proof.
  intros Ha Hty.
  assert (E : run (main w args) =
    ([LogInfo Separator; LogInfo Banner; LogInfo Blank;
      LogInfo (GenerationReport (type args)); LogInfo AllowedDeviation;
      LogInfo Separator],
     Raise AttributeError)).
  { unfold run, main, report_action. rewrite Ha. simpl.
    rewrite (dispatch_unknown w args Hty). reflexivity. }
  split; [exact E|]. rewrite E. simpl. repeat constructor.
Qed.

Lemma unknown_report_type_is_fatal_witness :
  run (main quiet (bare_args "report" (Some "tpch"))) =
    ([LogInfo Separator; LogInfo Banner; LogInfo Blank;
      LogInfo (GenerationReport (Some "tpch")); LogInfo AllowedDeviation;
      LogInfo Separator],
     Raise AttributeError) ∧
  Forall (λ e, report_work e = false)
         (run (main quiet (bare_args "report" (Some "tpch")))).1.
Proof.
  apply (unknown_report_type_is_fatal quiet (bare_args "report" (Some "tpch"))).
  - reflexivity.
  - intros name Hin. vm_compute in Hin.
    repeat (apply elem_of_cons in Hin as [->|Hin]; [discriminate|]).
    by apply elem_of_nil in Hin.
Defined.

End ReportDispatch.

(** ** The regression comparator *)

Section Compare.
Import Comparator.

#[local] Open Scope Q_scope.

Lemma Qlt_bool_iff (x y : Q) : Qlt_bool x y = true ↔ x < y.
Proof.
  unfold Qlt_bool. rewrite negb_true_iff. split.
  - intros H. apply Qnot_le_lt. intros Hle.
    apply Qle_bool_iff in Hle. congruence.
  - intros H. destruct (Qle_bool y x) eqn:E; [|done].
    apply Qle_bool_iff in E. exfalso. apply (Qlt_not_le _ _ H E).
Qed.

Lemma Qlt_bool_false (x y : Q) : Qlt_bool x y = false ↔ ¬ x < y.
Proof.
  rewrite <- Qlt_bool_iff. destruct (Qlt_bool x y); intuition congruence.
Qed.

Lemma classify_regressed (cfg : Config) (d : Q) :
  classify cfg d = REGRESSED ↔ skip_percentage_delta cfg < d.
Proof.
  unfold classify. rewrite <- Qlt_bool_iff.
  destruct (Qlt_bool (skip_percentage_delta cfg) d);
    [|destruct (Qlt_bool d (- skip_percentage_delta cfg))]; intuition congruence.
Qed.

Lemma classify_improved (cfg : Config) (d : Q) :
  0 <= skip_percentage_delta cfg →
  classify cfg d = IMPROVED ↔ d < - skip_percentage_delta cfg.
Proof.
  intros Hs. unfold classify.
  destruct (Qlt_bool (skip_percentage_delta cfg) d) eqn:E1.
  - apply Qlt_bool_iff in E1. split; [discriminate|]. intros H. lra.
  - rewrite <- Qlt_bool_iff.
    destruct (Qlt_bool d (- skip_percentage_delta cfg)); intuition congruence.
Qed.

Lemma classify_unchanged (cfg : Config) (d : Q) :
  classify cfg d = UNCHANGED ↔
  ¬ skip_percentage_delta cfg < d ∧ ¬ d < - skip_percentage_delta cfg.
Proof.
  unfold classify. rewrite <- !Qlt_bool_iff.
  destruct (Qlt_bool (skip_percentage_delta cfg) d);
    [|destruct (Qlt_bool d (- skip_percentage_delta cfg))]; intuition congruence.
Qed.

Lemma classify_not_skipped (cfg : Config) (d : Q) : classify cfg d ≠ SKIPPED.
Proof.
  unfold classify.
  destruct (Qlt_bool _ d); [|destruct (Qlt_bool d _)]; discriminate.
Qed.

(** What [compare] returns when it does not skip. *)
Lemma compare_not_skipped (cfg : Config) (A B : QueryResult) :
  classification (compare cfg A B) ≠ SKIPPED →
  compare cfg A B =
    {| reference := A; candidate := B; delta := Some (timing_delta A B);
       classification := classify cfg (timing_delta A B) |} ∧
  failed A = false ∧ failed B = false ∧
  timed_out cfg A = false ∧ timed_out cfg B = false.
Proof.
  unfold compare.
  destruct (failed A), (failed B); simpl; try congruence;
    destruct (timed_out cfg A), (timed_out cfg B); simpl; try congruence.
  done.
Qed.

Lemma delta_at (x r : Q) : 0 < r → (x * r - r) / r == x - 1.
Proof. intros H. field. lra. Qed.

Lemma delta_lt (c r s : Q) : 0 < r → (s < (c - r) / r ↔ (1 + s) * r < c).
Proof.
  intros H. split; intros H1.
  - apply (Qmult_lt_r _ _ r H) in H1.
    assert (E : (c - r) / r * r == c - r) by (field; lra). lra.
  - apply (Qmult_lt_r _ _ r H).
    assert (E : (c - r) / r * r == c - r) by (field; lra). lra.
Qed.

Lemma delta_gt (c r s : Q) : 0 < r → ((c - r) / r < s ↔ c < (1 + s) * r).
Proof.
  intros H. split; intros H1.
  - apply (Qmult_lt_r _ _ r H) in H1.
    assert (E : (c - r) / r * r == c - r) by (field; lra). lra.
  - apply (Qmult_lt_r _ _ r H).
    assert (E : (c - r) / r * r == c - r) by (field; lra). lra.
Qed.

(** C5: when [compare] does not skip (and the tolerance is not negative),
    its delta is [(candidate.timing - reference.timing) / reference.timing],
    and it answers REGRESSED exactly when the delta is above
    [skip_percentage_delta], IMPROVED exactly when it is below the negated
    tolerance, UNCHANGED otherwise.  With a tolerance of 0.05 and a positive
    reference timing, a candidate exactly 5 percent slower is UNCHANGED and
    every strictly slower one is REGRESSED. *)
Theorem compare_thresholds (cfg : Config) (A B : QueryResult) :
  classification (compare cfg A B) ≠ SKIPPED →
  0 <= skip_percentage_delta cfg →
  delta (compare cfg A B) = Some ((timing B - timing A) / timing A) ∧
  (classification (compare cfg A B) = REGRESSED ↔
     skip_percentage_delta cfg < (timing B - timing A) / timing A) ∧
  (classification (compare cfg A B) = IMPROVED ↔
     (timing B - timing A) / timing A < - skip_percentage_delta cfg) ∧
  (classification (compare cfg A B) = UNCHANGED ↔
     ¬ skip_percentage_delta cfg < (timing B - timing A) / timing A ∧
     ¬ (timing B - timing A) / timing A < - skip_percentage_delta cfg) ∧
  (skip_percentage_delta cfg == 5 # 100 → 0 < timing A →
     (timing B == (105 # 100) * timing A →
        classification (compare cfg A B) = UNCHANGED) ∧
     ((105 # 100) * timing A < timing B →
        classification (compare cfg A B) = REGRESSED)).
Proof.
  intros Hns Hs. destruct (compare_not_skipped cfg A B Hns) as (E & _).
  rewrite E. simpl. fold (timing_delta A B).
  split; [done|]. split; [apply classify_regressed|].
  split; [by apply classify_improved|]. split; [apply classify_unchanged|].
  intros H5 Hpos. split.
  - intros Heq. apply classify_unchanged. unfold timing_delta.
    rewrite delta_lt, delta_gt by done. rewrite H5, Heq. split; lra.
  - intros Hlt. apply classify_regressed. unfold timing_delta.
    rewrite delta_lt by done. rewrite H5. lra.
Qed.

Lemma compare_thresholds_witness :
  classification (compare default_config (timed 100) (timed 105)) = UNCHANGED ∧
  classification (compare default_config (timed 100) (timed 106)) = REGRESSED.
Proof.
  split.
  - apply (compare_thresholds default_config (timed 100) (timed 105)).
    + vm_compute. discriminate.
    + vm_compute. discriminate.
    + reflexivity.
    + reflexivity.
    + reflexivity.
  - apply (compare_thresholds default_config (timed 100) (timed 106)).
    + vm_compute. discriminate.
    + vm_compute. discriminate.
    + reflexivity.
    + reflexivity.
    + reflexivity.
Defined.

(** C6: when the aggregated timing of either side is above
    [test_query_timeout] less the tolerance [skip_timeout_delta], [compare]
    answers SKIPPED, without a delta, whatever the two timings are: never
    IMPROVED and never REGRESSED. *)
Theorem timeout_takes_precedence (cfg : Config) (A B : QueryResult) :
  test_query_timeout cfg - skip_timeout_delta cfg < timing A ∨
  test_query_timeout cfg - skip_timeout_delta cfg < timing B →
  classification (compare cfg A B) = SKIPPED ∧
  delta (compare cfg A B) = None ∧
  classification (compare cfg A B) ≠ IMPROVED ∧
  classification (compare cfg A B) ≠ REGRESSED.
Proof.
  intros H.
  assert (E : timed_out cfg A || timed_out cfg B = true).
  { apply orb_true_iff. unfold timed_out. rewrite !Qlt_bool_iff. exact H. }
  unfold compare. rewrite E.
  destruct (failed A || failed B); simpl; repeat split; discriminate.
Qed.

Lemma timeout_takes_precedence_witness :
  classification (compare default_config (timed 1300) (timed 1)) = SKIPPED ∧
  delta (compare default_config (timed 1300) (timed 1)) = None ∧
  classification (compare default_config (timed 1300) (timed 1)) ≠ IMPROVED ∧
  classification (compare default_config (timed 1300) (timed 1)) ≠ REGRESSED.
Proof.
  apply (timeout_takes_precedence default_config (timed 1300) (timed 1)).
  left. reflexivity.
Defined.

(** C4, as stated, fails: with timings 10 and 20 neither order is skipped
    and the deltas are 1 and -1/2, which are no negations of each other;
    with timings 100 and 105.2 one order is REGRESSED and the other is
    UNCHANGED, not IMPROVED. *)
Lemma compare_antisymmetry_counterexample :
  classification (compare default_config (timed 10) (timed 20)) ≠ SKIPPED ∧
  classification (compare default_config (timed 20) (timed 10)) ≠ SKIPPED ∧
  ¬ negated_deltas (compare default_config (timed 10) (timed 20))
                   (compare default_config (timed 20) (timed 10)) ∧
  classification (compare default_config (timed 100) (timed (1052 # 10))) = REGRESSED ∧
  classification (compare default_config (timed (1052 # 10)) (timed 100)) = UNCHANGED ∧
  classification (compare default_config (timed (1052 # 10)) (timed 100)) ≠
    inverse (classification (compare default_config (timed 100) (timed (1052 # 10)))).
Proof.
  repeat split; try (vm_compute; discriminate); reflexivity.
Qed.

(** C4, amended: for two results with positive timings that [compare]
    skips in neither order (the tolerance not being negative), the two
    deltas satisfy [delta(B,A) * timing(B) = - (delta(A,B) * timing(A))]: they
    have opposite signs, and are exact negations exactly when the two
    timings are equal.  If [compare(A,B)] is IMPROVED then [compare(B,A)] is
    REGRESSED; if [compare(A,B)] is REGRESSED then [compare(B,A)] is not
    REGRESSED. *)
Theorem compare_swap (cfg : Config) (A B : QueryResult) :
  classification (compare cfg A B) ≠ SKIPPED →
  classification (compare cfg B A) ≠ SKIPPED →
  0 <= skip_percentage_delta cfg →
  0 < timing A → 0 < timing B →
  ∃ d d' : Q,
    delta (compare cfg A B) = Some d ∧
    delta (compare cfg B A) = Some d' ∧
    d' * timing B == - (d * timing A) ∧
    (d' == - d ↔ timing A == timing B) ∧
    (classification (compare cfg A B) = IMPROVED →
       classification (compare cfg B A) = REGRESSED) ∧
    (classification (compare cfg A B) = REGRESSED →
       classification (compare cfg B A) ≠ REGRESSED).
Proof.
  intros HAB HBA Hs Ha Hb.
  destruct (compare_not_skipped cfg A B HAB) as (EAB & _).
  destruct (compare_not_skipped cfg B A HBA) as (EBA & _).
  rewrite EAB, EBA. simpl.
  exists (timing_delta A B), (timing_delta B A).
  split; [done|]. split; [done|]. unfold timing_delta.
  set (a := timing A) in *. set (b := timing B) in *.
  assert (Ed : (b - a) / a * a == b - a) by (field; lra).
  assert (Ed' : (a - b) / b * b == a - b) by (field; lra).
  split; [lra|]. split; [|split].
  - split.
    + intros H. rewrite H in Ed'.
      remember ((b - a) / a) as x eqn:Ex. clear Ex.
      assert (E : x * (a - b) == 0) by lra.
      apply Qmult_integral in E. destruct E as [E|E]; [|lra].
      rewrite E in Ed. lra.
    + intros H. rewrite H. field. rewrite <- H. lra.
  - rewrite classify_improved, classify_regressed by done.
    rewrite delta_gt, delta_lt by done. intros H.
    set (s := skip_percentage_delta cfg) in *.
    assert (Hs1 : s < 1).
    { destruct (Qlt_le_dec s 1) as [|Hge]; [done|].
      assert (0 <= (s - 1) * a) by (apply Qmult_le_0_compat; lra). lra. }
    assert (H1 : (1 + s) * b < (1 + s) * ((1 + - s) * a))
      by (apply Qmult_lt_l; [lra | exact H]).
    assert (H2 : 0 <= s * s * a)
      by (apply Qmult_le_0_compat; [apply Qmult_le_0_compat|]; lra).
    lra.
  - rewrite !classify_regressed, !delta_lt by done. intros H H'.
    set (s := skip_percentage_delta cfg) in *.
    assert (H1 : 0 <= s * a) by (apply Qmult_le_0_compat; lra).
    assert (H2 : 0 <= s * b) by (apply Qmult_le_0_compat; lra).
    lra.
Qed.

Lemma compare_swap_witness :
  ∃ d d' : Q,
    delta (compare default_config (timed 20) (timed 10)) = Some d ∧
    delta (compare default_config (timed 10) (timed 20)) = Some d' ∧
    d' * timing (timed 10) == - (d * timing (timed 20)) ∧
    (d' == - d ↔ timing (timed 20) == timing (timed 10)) ∧
    (classification (compare default_config (timed 20) (timed 10)) = IMPROVED →
       classification (compare default_config (timed 10) (timed 20)) = REGRESSED) ∧
    (classification (compare default_config (timed 20) (timed 10)) = REGRESSED →
       classification (compare default_config (timed 10) (timed 20)) ≠ REGRESSED).
Proof.
  apply (compare_swap default_config (timed 20) (timed 10)).
  - vm_compute. discriminate.
  - vm_compute. discriminate.
  - vm_compute. discriminate.
  - reflexivity.
  - reflexivity.
Defined.

End Compare.

(** ** The sample collector *)

Section Collect.
Import Collector.

#[local] Open Scope nat_scope.
#[local] Open Scope list_scope.

Lemma warmup_issued (db : Executions) (w k : nat) : warmup db w k = k + w.
Proof.
  revert k. induction w as [|w IH]; intros k; simpl.
  - lia.
  - destruct (db k); rewrite IH; lia.
Qed.

Lemma measure_spec (db : Executions) (r k : nat) (acc : list Q) :
  measure db r k acc = {| issued := k + r; retained := acc ++ timings db k r |}.
Proof.
  revert k acc. induction r as [|r IH]; intros k acc; simpl.
  - by rewrite Nat.add_0_r, app_nil_r.
  - destruct (db k) as [t|]; rewrite IH.
    + rewrite <- app_assoc. simpl. f_equal. lia.
    + f_equal. lia.
Qed.

Lemma timings_failures (db : Executions) (k r : nat) :
  length (timings db k r) + failures db k r = r.
Proof.
  revert k. induction r as [|r IH]; intros k; simpl; [done|].
  destruct (db k); simpl; specialize (IH (S k)); lia.
Qed.

Lemma timings_ext (db db' : Executions) (k r : nat) :
  (∀ i, k ≤ i → db' i = db i) → timings db' k r = timings db k r.
Proof.
  revert k. induction r as [|r IH]; intros k Hext; simpl; [done|].
  rewrite (Hext k) by lia. rewrite (IH (S k)); [done|].
  intros i Hi. apply Hext. lia.
Qed.

(** C3: with [num_warmup = w] and [num_retries = r], collecting one query
    issues exactly [w + r] timed executions; the samples retained are the
    timings of those among the last [r] executions that returned, in
    order, so that together with the ones that raised they are [r]: at
    most [r], and exactly [r] when none raised; and the first [w]
    executions are discarded whatever they did: their outcomes never
    influence the result. *)
Theorem collect_warmup_discard (db : Executions) (w r : nat) :
  issued (collect db w r) = w + r ∧
  retained (collect db w r) = timings db w r ∧
  length (retained (collect db w r)) + failures db w r = r ∧
  length (retained (collect db w r)) ≤ r ∧
  (failures db w r = 0 → length (retained (collect db w r)) = r) ∧
  (∀ db', (∀ k, w ≤ k → db' k = db k) → collect db' w r = collect db w r).
Proof.
  unfold collect. rewrite warmup_issued, measure_spec. simpl.
  pose proof (timings_failures db w r) as H.
  split; [done|]. split; [done|]. split; [done|]. split; [lia|].
  split; [lia|].
  intros db' Hext. rewrite warmup_issued, measure_spec. simpl.
  by rewrite (timings_ext db db' w r Hext).
Qed.

(** With one warmup run and three measured runs of which none raises,
    four executions are issued and three samples retained; when the first
    measured run raises, two are retained. *)
Example collect_flaky_once :
  collect flaky_once 1 3 = {| issued := 4; retained := [1%Q; 1%Q; 1%Q] |} ∧
  collect flaky_once 0 3 = {| issued := 3; retained := [1%Q; 1%Q] |}.
Proof. split; reflexivity. Qed.

End Collect.

(** ** The regression scenario *)

Section ScenarioFacts.
Import Scenario.

#[local] Open Scope list_scope.

Variable w : World.

(** *** The monad *)

Lemma bind_run {A B} (m : M A) (f : A → M B) (s : State) :
  (m ≫= f) s =
  match m s with
  | (s', Ok a) => f a s'
  | (s', Raise e) => (s', Raise e)
  end.
Proof. reflexivity. Qed.

Lemma call_state (e : Event) (s : State) : (call w e s).1 = record e s.
Proof. unfold call. by destruct (raises w (trace s) e). Qed.

(** *** Calls appended by each statement *)

Lemma emits_ret {A} P (a : A) : emits P (ret a).
Proof. intros s. exists []. simpl. by rewrite app_nil_r. Qed.

Lemma emits_mret {A} P (a : A) : emits P (mret a : M A).
Proof. apply emits_ret. Qed.

Lemma emits_raise {A} P e : emits P (raise e : M A).
Proof. intros s. exists []. simpl. by rewrite app_nil_r. Qed.

Lemma emits_history P : emits P history.
Proof. intros s. exists []. simpl. by rewrite app_nil_r. Qed.

Lemma emits_get_conn P : emits P get_conn.
Proof. intros s. exists []. simpl. by rewrite app_nil_r. Qed.

Lemma emits_deref P q : emits P (deref q).
Proof.
  intros s. exists []. unfold deref.
  destruct (heap s !! q); simpl; by rewrite app_nil_r.
Qed.

Lemma emits_assign P q o : emits P (assign q o).
Proof.
  intros s. exists []. simpl. rewrite app_nil_r, length_insert. done.
Qed.

Lemma emits_call (P : Event → Prop) e : P e → emits P (call w e).
Proof.
  intros HP s. exists [e]. rewrite call_state. simpl.
  repeat split; by repeat constructor.
Qed.

Lemma emits_bind {A B} P (m : M A) (f : A → M B) :
  emits P m → (∀ a, emits P (f a)) → emits P (m ≫= f).
Proof.
  intros Hm Hf s. rewrite bind_run.
  destruct (Hm s) as (evs1 & Ht & HP & Ho & Hc & Hh).
  destruct (m s) as [s1 [a|e]]; simpl in *.
  - destruct (Hf a s1) as (evs2 & Ht2 & HP2 & Ho2 & Hc2 & Hh2).
    exists (evs1 ++ evs2). rewrite Ht2, Ht, Ho2, Hc2, Hh2, app_assoc.
    repeat split; try done. by apply Forall_app.
  - by exists evs1.
Qed.

Lemma emits_try_finally {A} P (body : M A) (fin : M unit) :
  emits P body → emits P fin → emits P (try_finally body fin).
Proof.
  intros Hb Hf s. unfold try_finally.
  destruct (Hb s) as (evs1 & Ht & HP & Ho & Hc & Hh).
  destruct (body s) as [s1 r]; simpl in *.
  destruct (Hf s1) as (evs2 & Ht2 & HP2 & Ho2 & Hc2 & Hh2).
  exists (evs1 ++ evs2).
  destruct (fin s1) as [s2 [[]|e]]; simpl in *;
    rewrite Ht2, Ht, Ho2, Hc2, Hh2, app_assoc;
    repeat split; try done; by apply Forall_app.
Qed.

Lemma emits_try_except {A} P (body : M A) (handler : Exn → M A) :
  emits P body → (∀ e, emits P (handler e)) → emits P (try_except body handler).
Proof.
  intros Hb Hh s. unfold try_except.
  destruct (Hb s) as (evs1 & Ht & HP & Ho & Hc & Hl).
  destruct (body s) as [s1 [a|e]]; simpl in *.
  - by exists evs1.
  - destruct (Hh e s1) as (evs2 & Ht2 & HP2 & Ho2 & Hc2 & Hl2).
    exists (evs1 ++ evs2). rewrite Ht2, Ht, Ho2, Hc2, Hl2, app_assoc.
    repeat split; try done. by apply Forall_app.
Qed.

Lemma emits_weaken {A} (P P' : Event → Prop) (m : M A) :
  (∀ e, P e → P' e) → emits P m → emits P' m.
Proof.
  intros HPP Hm s. destruct (Hm s) as (evs & Ht & HP & Hrest).
  exists evs. split; [done|]. split; [|done].
  eapply Forall_impl; eauto.
Qed.

Ltac event_fact :=
  unfold reporting, through, first_phase, second_phase, finalising, conn_of;
  repeat split; try discriminate; try (intros; discriminate);
  try (intros ? [= <-]; auto); eauto 6.

Ltac emits_steps :=
  repeat first
    [ apply emits_bind; [|intros ?]
    | apply emits_try_finally
    | apply emits_try_except; [|intros ?]
    | apply emits_mret | apply emits_ret | apply emits_raise
    | apply emits_history | apply emits_get_conn | apply emits_deref
    | apply emits_assign
    | apply emits_call; event_fact ].

Lemma emits_with_cursor {A} (P : Event → Prop) c (body : M A) :
  P (Cursor c) → P (CursorExit c) → emits P body → emits P (with_cursor w c body).
Proof. intros H1 H2 Hb. unfold with_cursor. emits_steps; done. Qed.

Lemma emits_evaluate_query c total counter q vq :
  emits (through c) (evaluate_query w c total counter q vq).
Proof. unfold evaluate_query. emits_steps. Qed.

Lemma emits_evaluate_loop c total queries counter vq :
  emits (through c) (evaluate_loop w c total queries counter vq).
Proof.
  revert counter vq. induction queries as [|q rest IH]; intros counter vq; simpl.
  - apply emits_ret.
  - emits_steps. apply IH.
Qed.

Lemma emits_evaluate_queries_for_version c queries :
  emits (through c) (evaluate_queries_for_version w c queries).
Proof.
  unfold evaluate_queries_for_version.
  apply emits_with_cursor; [event_fact..|apply emits_evaluate_loop].
Qed.

Lemma emits_select_version c : emits (through c) (select_version w c).
Proof.
  unfold select_version. apply emits_with_cursor; [event_fact..|]. emits_steps.
Qed.

Lemma emits_add_queries (P : Event → Prop) pairs :
  (∀ a b, P (AddQuery a b)) → emits P (add_queries w pairs).
Proof.
  intros HP. induction pairs as [|[a b] rest IH]; simpl.
  - apply emits_ret.
  - apply emits_bind; [by apply emits_call | intros _; apply IH].
Qed.

Lemma emits_close_conn (P : Event → Prop) :
  (∀ c, P (Close c)) → emits P (close_conn w).
Proof.
  intros HP. unfold close_conn. apply emits_bind; [apply emits_get_conn|].
  intros [c|]; [by apply emits_call | apply emits_raise].
Qed.

Lemma emits_evaluate_finally : emits finalising (evaluate_finally w).
Proof.
  unfold evaluate_finally.
  apply emits_bind; [apply emits_call; event_fact | intros _].
  apply emits_bind; [apply emits_call; event_fact | intros _].
  apply emits_bind; [apply emits_close_conn; intros c; event_fact | intros _].
  apply emits_call; event_fact.
Qed.

Lemma through_first_phase e : through 0 e → first_phase e.
Proof. intros (H1 & _ & _ & H3 & H2). by repeat split. Qed.

Lemma through_second_phase e : through 1 e → second_phase e.
Proof. intros (H1 & _ & _ & _ & H2). split; [done|]. intros c Hc. left. eauto. Qed.

Lemma finalising_first_phase_or e :
  finalising e → e ≠ SwitchVersion ∧ ∀ c, conn_of e = Some c → e = Close c.
Proof.
  intros [->|[->|[->|[c ->]]]]; split; try discriminate; simpl;
    try (intros; discriminate). by intros ? [= <-].
Qed.

(** *** Normal returns *)

Lemma bind_ok {A B} (m : M A) (f : A → M B) s s' (b : B) :
  (m ≫= f) s = (s', Ok b) →
  ∃ a s1, m s = (s1, Ok a) ∧ f a s1 = (s', Ok b).
Proof.
  rewrite bind_run. destruct (m s) as [s1 [a|e]]; [eauto|discriminate].
Qed.

Lemma call_ok e s s' u :
  call w e s = (s', Ok u) → s' = record e s ∧ raises w (trace s) e = false.
Proof.
  unfold call. destruct (raises w (trace s) e); [discriminate|].
  by intros [= <-].
Qed.

Lemma deref_ok q s s' o : deref q s = (s', Ok o) → s' = s.
Proof. unfold deref. destruct (heap s !! q); [|discriminate]. by intros [= <- _]. Qed.

Lemma assign_trace q o s : trace (assign q o s).1 = trace s.
Proof. reflexivity. Qed.

Lemma try_finally_ok {A} (body : M A) (fin : M unit) s s' (a : A) :
  try_finally body fin s = (s', Ok a) →
  ∃ s1, body s = (s1, Ok a) ∧ fin s1 = (s', Ok ()).
Proof.
  unfold try_finally. destruct (body s) as [s1 r].
  destruct (fin s1) as [s2 [[]|e]] eqn:E; [|discriminate].
  intros [= <- ->]. eauto.
Qed.

Lemma try_except_reraise {A} (body : M A) s :
  try_except body (λ e, raise e) s = body s.
Proof. unfold try_except. by destruct (body s) as [s1 [a|e]]. Qed.

Lemma evaluate_query_ok c total counter q vq s s' r :
  evaluate_query w c total counter q vq s = (s', Ok r) →
  r = vq ++ [q] ∧
  ∃ h, trace s' = h ++ [CalculateAvgExecutionTime c q (num_retries w)].
Proof.
  unfold evaluate_query. intros H.
  repeat (apply bind_ok in H as (? & ? & ? & H)).
  repeat match goal with
         | E : deref _ _ = (_, Ok _) |- _ => apply deref_ok in E; subst
         | E : call w _ _ = (_, Ok _) |- _ => apply call_ok in E as [-> _]
         | E : history _ = (_, Ok _) |- _ => injection E as <- <-
         | E : assign _ _ _ = (_, Ok _) |- _ => injection E as <- _
         end.
  injection H as <- <-. split; [done|]. simpl. eauto.
Qed.

Lemma evaluate_loop_ok c total queries counter vq s s' r :
  evaluate_loop w c total queries counter vq s = (s', Ok r) →
  r = vq ++ queries ∧
  ∀ q, q ∈ queries → CalculateAvgExecutionTime c q (num_retries w) ∈ trace s'.
Proof.
  revert counter vq s. induction queries as [|q rest IH]; intros counter vq s; simpl.
  - intros [= <- <-]. rewrite app_nil_r. split; [done|]. intros q Hq.
    by apply elem_of_nil in Hq.
  - intros H. apply bind_ok in H as (vq1 & s1 & H1 & H).
    apply try_finally_ok in H1 as (s1' & H1 & [= <-]).
    rewrite try_except_reraise in H1.
    apply evaluate_query_ok in H1 as [-> [h Hh]].
    destruct (emits_evaluate_loop c total rest (counter + 1) (vq ++ [q]) s1')
      as (evs & Ht & _).
    rewrite H in Ht. simpl in Ht.
    apply IH in H as [-> Hin]. rewrite <- app_assoc. split; [done|].
    intros q' [->|Hq']%elem_of_cons; [|by apply Hin].
    rewrite Ht, Hh. rewrite !elem_of_app, list_elem_of_singleton. auto.
Qed.

Lemma evaluate_queries_for_version_ok c queries s s' r :
  evaluate_queries_for_version w c queries s = (s', Ok r) →
  r = queries ∧
  ∀ q, q ∈ queries → CalculateAvgExecutionTime c q (num_retries w) ∈ trace s'.
Proof.
  unfold evaluate_queries_for_version, with_cursor. intros H.
  apply bind_ok in H as ([] & s1 & _ & H).
  apply try_finally_ok in H as (s2 & H & Hexit).
  apply evaluate_loop_ok in H as [-> Hin]. split; [done|].
  intros q Hq. apply call_ok in Hexit as [-> _]. simpl.
  apply elem_of_app. left. by apply Hin.
Qed.

(** *** The two halves of [evaluate]'s [try] block *)

Lemma evaluate_body_split (s : State) :
  evaluate_body w s =
  (x ← before_switch w;
   call w SwitchVersion;;
   after_switch w x.1.1 x.1.2 x.2) s.
Proof.
  unfold evaluate_body, before_switch. rewrite !bind_run.
  destruct (connect_to_db w s) as [s1 [c|e]]; [|done].
  rewrite !bind_run. destruct (set_conn c s1) as [s2 [[]|e]]; [|done].
  rewrite !bind_run. destruct (select_version w c s2) as [s3 [fv|e]]; [|done].
  rewrite !bind_run. destruct (call w GetTestModel s3) as [s4 [[]|e]]; [|done].
  rewrite !bind_run. destruct (call w (CreateTables c) s4) as [s5 [[]|e]]; [|done].
  rewrite !bind_run. destruct (call w GetQueries s5) as [s6 [[]|e]]; [|done].
  rewrite !bind_run. destruct (history s6) as [s7 [h|e]]; [|done].
  rewrite !bind_run. destruct (allocate (get_queries w h) s7) as [s8 [qs|e]]; [|done].
  rewrite !bind_run.
  destruct (evaluate_queries_for_version w c qs s8) as [s9 [fvq|e]]; [|done].
  rewrite !bind_run. destruct (close_conn w s9) as [s10 [[]|e]]; [|done].
  reflexivity.
Qed.

Lemma call_run e s :
  call w e s = (record e s, if raises w (trace s) e then Raise (Failure e) else Ok ()).
Proof. unfold call. by destruct (raises w (trace s) e). Qed.

Lemma connect_run s :
  connect_to_db w s =
  if raises w (trace s) (ConnectToDb (opened s))
  then (record (ConnectToDb (opened s)) s, Raise (Failure (ConnectToDb (opened s))))
  else ({| trace := trace s ++ [ConnectToDb (opened s)]; heap := heap s;
           opened := S (opened s); conn := conn s |}, Ok (opened s)).
Proof. reflexivity. Qed.

Lemma Forall_through_first evs : Forall (through 0) evs → Forall first_phase evs.
Proof. intros H. eapply Forall_impl; [exact H | exact through_first_phase]. Qed.

Lemma Forall_through_second evs : Forall (through 1) evs → Forall second_phase evs.
Proof. intros H. eapply Forall_impl; [exact H | exact through_second_phase]. Qed.

Ltac trace_eq :=
  simpl; repeat (rewrite <- ?app_assoc; simpl); reflexivity.

Ltac phase_facts :=
  repeat first
    [ apply Forall_nil_2
    | apply Forall_cons_2; [event_fact|]
    | apply Forall_app_2
    | by apply Forall_through_first
    | by apply Forall_through_second ].

Lemma before_switch_spec s :
  opened s = 0 →
  ∃ evs,
    trace (before_switch w s).1 = trace s ++ evs ∧ Forall first_phase evs ∧
    ∀ fv qs fvq, (before_switch w s).2 = Ok (fv, qs, fvq) →
      opened (before_switch w s).1 = 1 ∧
      (∃ evs0, evs = evs0 ++ [Close 0]) ∧
      fvq = qs ∧
      qs = seq (length (heap s))
               (length (heap (before_switch w s).1) - length (heap s)) ∧
      ∀ q, q ∈ qs →
        CalculateAvgExecutionTime 0 q (num_retries w) ∈ trace (before_switch w s).1.
Proof.
  intros Ho. unfold before_switch. rewrite bind_run, connect_run, Ho.
  destruct (raises w (trace s) (ConnectToDb 0)).
  { exists [ConnectToDb 0]. simpl. split; [done|]. split; [phase_facts|done]. }
  rewrite bind_run. unfold set_conn. cbv beta iota. rewrite bind_run.
  match goal with
  | |- context [select_version w 0 ?st] => set (s2 := st)
  end.
  assert (T0 : trace s2 = trace s ++ [ConnectToDb 0]) by reflexivity.
  assert (L0 : length (heap s2) = length (heap s)) by reflexivity.
  assert (O0 : opened s2 = 1) by reflexivity.
  assert (C0 : conn s2 = Some 0) by reflexivity.
  clearbody s2.
  destruct (emits_select_version 0 s2) as (e1 & T1 & P1 & O1 & C1 & L1).
  destruct (select_version w 0 s2) as [s3 [fv|x]]; simpl in T1, O1, C1, L1;
    rewrite T0 in T1.
  2:{ eexists. simpl. split; [rewrite T1; trace_eq|]. split; [phase_facts|done]. }
  cbv beta iota. rewrite bind_run, call_run.
  destruct (raises w (trace s3) GetTestModel).
  { eexists. simpl. split; [rewrite T1; trace_eq|]. split; [phase_facts|done]. }
  cbv beta iota. rewrite bind_run, call_run.
  destruct (raises w (trace (record GetTestModel s3)) (CreateTables 0)).
  { eexists. simpl. split; [rewrite T1; trace_eq|]. split; [phase_facts|done]. }
  cbv beta iota. rewrite bind_run, call_run.
  destruct (raises w (trace (record (CreateTables 0) (record GetTestModel s3))) GetQueries).
  { eexists. simpl. split; [rewrite T1; trace_eq|]. split; [phase_facts|done]. }
  cbv beta iota. rewrite bind_run. unfold history. cbv beta iota.
  rewrite bind_run. unfold allocate. cbv beta iota. rewrite bind_run.
  match goal with
  | |- context [evaluate_queries_for_version w 0 ?qs ?st] =>
      set (queries := qs); set (s8 := st)
  end.
  assert (T8 : trace s8 = trace s3 ++ [GetTestModel; CreateTables 0; GetQueries])
    by (simpl; by rewrite <- !app_assoc).
  assert (L8 : length (heap s8) = length (heap s3) + length queries).
  { subst s8 queries. simpl. by rewrite length_app, length_seq. }
  assert (Q8 : queries = seq (length (heap s3)) (length queries)).
  { subst queries. simpl. by rewrite length_seq. }
  assert (C8 : conn s8 = conn s3) by reflexivity.
  assert (O8 : opened s8 = opened s3) by reflexivity.
  clearbody s8 queries.
  destruct (emits_evaluate_queries_for_version 0 queries s8)
    as (e2 & T2 & P2 & O2 & C2 & L2).
  pose proof (evaluate_queries_for_version_ok 0 queries s8) as Hok.
  destruct (evaluate_queries_for_version w 0 queries s8) as [s9 [fvq|x]];
    simpl in T2, O2, C2, L2; rewrite T8, T1 in T2.
  2:{ eexists. simpl. split; [rewrite T2; trace_eq|]. split; [phase_facts|done]. }
  destruct (Hok s9 fvq eq_refl) as [-> Hin]. clear Hok.
  cbv beta iota. rewrite bind_run. unfold close_conn. rewrite bind_run.
  unfold get_conn. cbv beta iota. rewrite C2, C8, C1, C0. cbv beta iota.
  rewrite call_run.
  destruct (raises w (trace s9) (Close 0)).
  { eexists. simpl. split; [rewrite T2; trace_eq|]. split; [phase_facts|done]. }
  eexists. simpl. split; [rewrite T2; trace_eq|].
  split; [phase_facts|].
  intros fv' qs fvq [= <- <- <-].
  split; [by rewrite O2, O8, O1|]. split.
  { eexists. rewrite !app_comm_cons, !app_assoc. reflexivity. }
  split; [done|]. split.
  - rewrite L2, L8, L1, L0. rewrite Q8 at 1. rewrite L1, L0. f_equal. lia.
  - intros q Hq. apply elem_of_app. left. by apply Hin.
Qed.

Lemma emits_add_queries_in (P : Event → Prop) pairs :
  (∀ a b, (a, b) ∈ pairs → P (AddQuery a b)) → emits P (add_queries w pairs).
Proof.
  induction pairs as [|[a b] rest IH]; intros HP; simpl.
  - apply emits_ret.
  - apply emits_bind.
    + apply emits_call, HP, list_elem_of_here.
    + intros _. apply IH. intros a' b' Hin. by apply HP, list_elem_of_further.
Qed.

Lemma through_reporting pairs e : through 1 e → reporting pairs e.
Proof.
  intros H. split; [by apply through_second_phase|].
  intros a b ->. destruct H as (_ & _ & _ & H & _). by destruct (H a b).
Qed.

Lemma Forall_through_reporting pairs evs :
  Forall (through 1) evs → Forall (reporting pairs) evs.
Proof. intros H. eapply Forall_impl; [exact H | apply through_reporting]. Qed.

Lemma reporting_AddQuery pairs a b : (a, b) ∈ pairs → reporting pairs (AddQuery a b).
Proof.
  intros Hin. split; [event_fact|]. by intros a' b' [= <- <-].
Qed.

Lemma after_switch_spec fv qs fvq s :
  opened s = 1 →
  ∃ evs,
    trace (after_switch w fv qs fvq s).1 = trace s ++ evs ∧
    Forall (reporting (zip fvq qs)) evs ∧
    length (heap (after_switch w fv qs fvq s).1) = length (heap s).
Proof.
  intros Ho. unfold after_switch. rewrite bind_run, connect_run, Ho.
  destruct (raises w (trace s) (ConnectToDb 1)).
  { exists [ConnectToDb 1]. simpl. split; [done|]. split; [|done].
    apply Forall_cons_2; [event_fact | apply Forall_nil_2]. }
  rewrite bind_run. unfold set_conn. cbv beta iota. rewrite bind_run.
  match goal with
  | |- context [select_version w 1 ?st] => set (s2 := st)
  end.
  assert (T0 : trace s2 = trace s ++ [ConnectToDb 1]) by reflexivity.
  assert (L0 : length (heap s2) = length (heap s)) by reflexivity.
  clearbody s2.
  assert (Hc : reporting (zip fvq qs) (ConnectToDb 1))
    by event_fact.
  destruct (emits_select_version 1 s2) as (e1 & T1 & P1 & _ & _ & L1).
  apply (Forall_through_reporting (zip fvq qs)) in P1.
  destruct (select_version w 1 s2) as [s3 [sv|x]]; simpl in T1, L1;
    rewrite T0 in T1; rewrite L0 in L1.
  2:{ eexists. simpl. split; [rewrite T1; trace_eq|]. split; [|done].
      by apply Forall_cons_2. }
  cbv beta iota. rewrite bind_run, call_run.
  assert (Hd : reporting (zip fvq qs) (DefineVersion fv sv))
    by event_fact.
  set (s4 := record (DefineVersion fv sv) s3).
  assert (T4 : trace s4 = trace s3 ++ [DefineVersion fv sv]) by reflexivity.
  assert (L4 : length (heap s4) = length (heap s3)) by reflexivity.
  destruct (raises w (trace s3) (DefineVersion fv sv)).
  { eexists. simpl. split; [rewrite T1; trace_eq|]. split; [|done].
    apply Forall_cons_2; [done|]. apply Forall_app_2; [done|]. by repeat constructor. }
  cbv beta iota. rewrite bind_run. clearbody s4.
  destruct (emits_evaluate_queries_for_version 1 qs s4) as (e2 & T2 & P2 & _ & _ & L2).
  apply (Forall_through_reporting (zip fvq qs)) in P2.
  pose proof (evaluate_queries_for_version_ok 1 qs s4) as Hok.
  destruct (evaluate_queries_for_version w 1 qs s4) as [s5 [svq|x]];
    simpl in T2, L2; rewrite T4, T1 in T2; rewrite L4, L1 in L2.
  2:{ eexists. simpl. split; [rewrite T2; trace_eq|]. split; [|done].
      apply Forall_cons_2; [done|]. apply Forall_app_2; [done|].
      apply Forall_cons_2; [done|]. done. }
  destruct (Hok s5 svq eq_refl) as [-> _]. clear Hok. cbv beta iota.
  destruct (emits_add_queries_in (reporting (zip fvq qs)) (zip fvq qs)
              (reporting_AddQuery _) s5) as (e3 & T3 & P3 & _ & _ & L3).
  eexists. split; [rewrite T3, T2; trace_eq|]. split; [|by rewrite L3].
  apply Forall_cons_2; [done|]. apply Forall_app_2; [done|].
  apply Forall_cons_2; [done|]. by apply Forall_app_2.
Qed.

Lemma try_finally_run {A} (body : M A) (fin : M unit) s :
  try_finally body fin s =
  match fin (body s).1 with
  | (s2, Ok _) => (s2, (body s).2)
  | (s2, Raise e) => (s2, Raise e)
  end.
Proof. unfold try_finally. by destruct (body s). Qed.

Lemma try_finally_state {A} (body : M A) (fin : M unit) s :
  (try_finally body fin s).1 = (fin (body s).1).1.
Proof.
  rewrite try_finally_run. by destruct (fin (body s).1) as [s2 [[]|e]].
Qed.

(** The calls of one run of [evaluate]: either the version switch is never
    reached, or the trace falls into the part before it, which ends with
    closing connection 0, and the part after it. *)
Lemma evaluate_shape :
  let s' := (run (evaluate w)).1 in
  (∃ evs fin,
      trace s' = StartDb :: evs ++ fin ∧
      Forall first_phase evs ∧ Forall finalising fin) ∨
  (∃ pre0 post fin,
      trace s' = (StartDb :: pre0 ++ [Close 0]) ++ SwitchVersion :: post ++ fin ∧
      Forall first_phase pre0 ∧
      Forall (reporting (zip (seq 0 (length (heap s'))) (seq 0 (length (heap s'))))) post ∧
      Forall finalising fin ∧
      ∀ q, q < length (heap s') →
           CalculateAvgExecutionTime 0 q (num_retries w) ∈ StartDb :: pre0 ++ [Close 0]).
Proof.
  unfold run, evaluate. rewrite bind_run, call_run.
  destruct (raises w (trace initial) StartDb).
  { left. exists [], []. simpl. repeat split; constructor. }
  cbv beta iota. rewrite try_finally_state.
  set (s1 := record StartDb initial).
  assert (T1 : trace s1 = [StartDb]) by reflexivity.
  assert (L1 : length (heap s1) = 0) by reflexivity.
  assert (O1 : opened s1 = 0) by reflexivity.
  clearbody s1.
  rewrite evaluate_body_split, bind_run.
  destruct (before_switch_spec s1 O1) as (evs & Tb & Pb & Hok).
  destruct (before_switch w s1) as [sb [[[fv qs] fvq]|x]]; simpl in Tb, Hok;
    rewrite T1 in Tb.
  2:{ destruct (emits_evaluate_finally sb) as (fin & Tf & Pf & _).
      left. exists evs, fin. simpl. rewrite Tf, Tb. split; [trace_eq|done]. }
  destruct (Hok fv qs fvq eq_refl) as (Ob & [evs0 ->] & -> & Hqs & Hin).
  clear Hok. rewrite L1, Nat.sub_0_r in Hqs.
  apply Forall_app in Pb as [Pb _].
  cbv beta iota. rewrite bind_run, call_run.
  set (sw := record SwitchVersion sb).
  assert (Tw : trace sw = trace sb ++ [SwitchVersion]) by reflexivity.
  assert (Lw : length (heap sw) = length (heap sb)) by reflexivity.
  assert (Ow : opened sw = 1) by exact Ob.
  clearbody sw. right.
  destruct (raises w (trace sb) SwitchVersion).
  { destruct (emits_evaluate_finally sw) as (fin & Tf & Pf & _ & _ & Lf).
    exists evs0, [], fin. simpl. rewrite Tf, Tw, Tb, Lf, Lw.
    split; [trace_eq|]. split; [done|]. split; [constructor|]. split; [done|].
    intros q Hq. rewrite Tb in Hin. apply Hin. rewrite Hqs.
    apply elem_of_seq. lia. }
  cbv beta iota. cbn [fst snd].
  destruct (after_switch_spec fv qs qs sw Ow) as (post & Ta & Pa & La).
  destruct (after_switch w fv qs qs sw) as [sa r]; simpl in Ta, La.
  cbn [fst snd].
  destruct (emits_evaluate_finally sa) as (fin & Tf & Pf & _ & _ & Lf).
  exists evs0, post, fin. rewrite Tf, Ta, Tw, Tb, Lf, La, Lw, <- Hqs.
  split; [trace_eq|]. split; [done|]. split; [done|]. split; [done|].
  intros q Hq. rewrite Tb in Hin. apply Hin. rewrite Hqs.
  apply elem_of_seq. lia.
Qed.

(** *** Calls that return, calls that raise *)

Lemma all_returned_app h l1 l2 :
  all_returned w h (l1 ++ l2) ↔ all_returned w h l1 ∧ all_returned w (h ++ l1) l2.
Proof.
  revert h. induction l1 as [|e l1 IH]; intros h; simpl.
  - rewrite app_nil_r. tauto.
  - rewrite IH, <- app_assoc. simpl. tauto.
Qed.

Lemma all_returned_but_last h l : all_returned w h l → returned_but_last w h l.
Proof.
  revert h. induction l as [|e l IH]; intros h; simpl; [done|].
  intros [H1 H2]. destruct l; [done|]. split; [done|]. by apply IH.
Qed.

Lemma returned_but_last_cons h e l :
  l ≠ [] →
  returned_but_last w h (e :: l) ↔
  raises w h e = false ∧ returned_but_last w (h ++ [e]) l.
Proof. by destruct l. Qed.

Lemma returned_but_last_app h l1 l2 :
  all_returned w h l1 → returned_but_last w (h ++ l1) l2 →
  returned_but_last w h (l1 ++ l2).
Proof.
  revert h. induction l1 as [|e l1 IH]; intros h.
  - simpl. rewrite app_nil_r. tauto.
  - intros [H1 H2] H3.
    replace (h ++ e :: l1) with ((h ++ [e]) ++ l1) in H3 by (by rewrite <- app_assoc).
    specialize (IH _ H2 H3). change ((e :: l1) ++ l2) with (e :: (l1 ++ l2)).
    destruct (l1 ++ l2) as [|e0 l]; [done|].
    apply returned_but_last_cons; done.
Qed.

Lemma all_returned_elem h h1 e h2 :
  all_returned w h (h1 ++ e :: h2) → raises w (h ++ h1) e = false.
Proof. rewrite all_returned_app. simpl. tauto. Qed.

Lemma returned_but_last_elem h h1 e h2 :
  returned_but_last w h (h1 ++ e :: h2) → h2 ≠ [] → raises w (h ++ h1) e = false.
Proof.
  revert h. induction h1 as [|a h1 IH]; intros h.
  - simpl. rewrite app_nil_r. intros H Hne.
    apply returned_but_last_cons in H; [tauto|done].
  - change ((a :: h1) ++ e :: h2) with (a :: (h1 ++ e :: h2)). intros H Hne.
    apply returned_but_last_cons in H as [_ H]; [|by destruct h1].
    replace (h ++ a :: h1) with ((h ++ [a]) ++ h1) by (by rewrite <- app_assoc).
    by apply IH.
Qed.

Lemma fail_stop_silent {A} (m : M A) :
  (∀ s, trace (m s).1 = trace s) → fail_stop w m.
Proof. intros H s. exists []. rewrite H, app_nil_r. done. Qed.

Lemma fail_stop_ret {A} (a : A) : fail_stop w (mret a : M A).
Proof. by apply fail_stop_silent. Qed.

Lemma fail_stop_deref q : fail_stop w (deref q).
Proof.
  apply fail_stop_silent. intros s. unfold deref. by destruct (heap s !! q).
Qed.

Lemma fail_stop_call e : fail_stop w (call w e).
Proof.
  intros s. exists [e]. rewrite call_run. simpl. split; [done|]. split; [done|].
  intros []. by destruct (raises w (trace s) e).
Qed.

Lemma fail_stop_bind {A B} (m : M A) (f : A → M B) :
  fail_stop w m → (∀ a, fail_stop w (f a)) → fail_stop w (m ≫= f).
Proof.
  intros Hm Hf s. rewrite bind_run.
  destruct (Hm s) as (evs1 & T1 & R1 & K1).
  destruct (m s) as [s1 [a|e]]; simpl in *.
  - destruct (Hf a s1) as (evs2 & T2 & R2 & K2).
    specialize (K1 a eq_refl). rewrite T1 in R2, K2.
    exists (evs1 ++ evs2). rewrite T2, T1, app_assoc. split; [done|]. split.
    + by apply returned_but_last_app.
    + intros b Hb. apply all_returned_app. split; [done|]. by eapply K2.
  - exists evs1. split; [done|]. split; [done|]. discriminate.
Qed.

Lemma fail_stop_ext {A} (m m' : M A) :
  (∀ s, m s = m' s) → fail_stop w m' → fail_stop w m.
Proof. intros E H s. rewrite E. apply H. Qed.

Lemma try_finally_skip {A} (body : M A) s :
  try_finally body (ret ()) s = body s.
Proof. unfold try_finally. by destruct (body s). Qed.

Ltac fail_stop_steps :=
  repeat first
    [ apply fail_stop_bind; [|intros ?]
    | apply fail_stop_call | apply fail_stop_deref
    | apply fail_stop_ret
    | by apply fail_stop_silent ].

Lemma fail_stop_evaluate_query c total counter q vq :
  fail_stop w (evaluate_query w c total counter q vq).
Proof. unfold evaluate_query. fail_stop_steps. Qed.

Lemma fail_stop_evaluate_loop c total queries counter vq :
  fail_stop w (evaluate_loop w c total queries counter vq).
Proof.
  revert counter vq. induction queries as [|q rest IH]; intros counter vq; simpl.
  - by apply fail_stop_silent.
  - apply fail_stop_bind; [|intros ?; apply IH].
    eapply fail_stop_ext; [|apply (fail_stop_evaluate_query c total counter q vq)].
    intros s. by rewrite try_finally_skip, try_except_reraise.
Qed.

(** After a call that raised, the one call that may follow is [z]. *)
Lemma only_exit_follows h a evs z h1 e h2 :
  raises w h a = false →
  returned_but_last w (h ++ [a]) evs →
  a :: evs ++ [z] = h1 ++ e :: h2 →
  raises w (h ++ h1) e = true →
  h2 = [] ∨ h2 = [z].
Proof.
  intros Ha Hevs E He.
  destruct h2 as [|y h2 _] using rev_ind; [by left|]. right.
  assert (E' : (a :: evs) ++ [z] = (h1 ++ e :: h2) ++ [y])
    by (rewrite <- app_assoc; exact E).
  clear E. apply app_inj_tail in E' as [E <-].
  destruct h2 as [|y' h2]; [done|]. exfalso.
  assert (R : returned_but_last w h (a :: evs)).
  { apply (returned_but_last_app h [a] evs); [by split|done]. }
  rewrite E in R. apply returned_but_last_elem in R; [congruence|done].
Qed.

(** *** The collection loop *)

(** C1, amended: when a call made while collecting a query raises,
    [evaluate_queries_for_version] raises as well ([except Exception as e:
    raise e]): after the call that raised nothing more is called but the
    cursor's exit, so no failed result is recorded and the remaining
    queries are not evaluated.  When it returns, no call raised and the
    list returned is the whole list of queries. *)
Theorem query_failure_aborts_collection (c : Conn) (queries : list Ref) (s : State) :
  ∃ evs,
    trace (evaluate_queries_for_version w c queries s).1 = trace s ++ evs ∧
    (∀ vq, (evaluate_queries_for_version w c queries s).2 = Ok vq →
           vq = queries ∧ all_returned w (trace s) evs) ∧
    (∀ h e h', evs = h ++ e :: h' → raises w (trace s ++ h) e = true →
               (∃ x, (evaluate_queries_for_version w c queries s).2 = Raise x) ∧
               (h' = [] ∨ h' = [CursorExit c])).
Proof.
  unfold evaluate_queries_for_version, with_cursor.
  rewrite bind_run, call_run.
  destruct (raises w (trace s) (Cursor c)) eqn:Hc; cbv beta iota.
  { exists [Cursor c]. split; [done|]. split; [discriminate|].
    intros h e h' E _. split; [eauto|].
    destruct h as [|? h]; [injection E as _ <-; by left|].
    injection E as _ E. by destruct h. }
  rewrite try_finally_run.
  set (s1 := record (Cursor c) s).
  assert (T1 : trace s1 = trace s ++ [Cursor c]) by reflexivity. clearbody s1.
  destruct (fail_stop_evaluate_loop c (length queries) queries 1 [] s1)
    as (evsL & TL & RL & KL).
  destruct (evaluate_loop w c (length queries) queries 1 [] s1) as [sL r] eqn:EL.
  cbn [fst snd] in *. rewrite call_run. rewrite T1 in RL, KL, TL.
  exists (Cursor c :: evsL ++ [CursorExit c]).
  assert (Hok : ∀ vq,
    (if raises w (trace sL) (CursorExit c)
     then (record (CursorExit c) sL, Raise (Failure (CursorExit c)))
     else (record (CursorExit c) sL, r)).2 = Ok vq →
    vq = queries ∧ all_returned w (trace s) (Cursor c :: evsL ++ [CursorExit c])).
  { intros vq Hvq. destruct (raises w (trace sL) (CursorExit c)) eqn:Hx;
      [discriminate|]. simpl in Hvq. subst r.
    split; [by apply evaluate_loop_ok in EL as [-> _]|].
    simpl. split; [done|]. apply all_returned_app. split; [by eapply KL|].
    simpl. by rewrite <- TL. }
  split; [|split].
  - destruct (raises w (trace sL) (CursorExit c)); simpl; rewrite TL; trace_eq.
  - intros vq Hvq. apply Hok.
    by destruct (raises w (trace sL) (CursorExit c)).
  - intros h e h' E He. split.
    + destruct (raises w (trace sL) (CursorExit c)) eqn:Hx; [simpl; eauto|].
      destruct r as [vq|x]; [|simpl; eauto]. exfalso.
      destruct (Hok vq) as [_ Hall]; [done|].
      rewrite E in Hall. apply all_returned_elem in Hall. congruence.
    + by apply (only_exit_follows (trace s) (Cursor c) evsL (CursorExit c) h e h').
Qed.

(** *** The version switch *)

Lemma not_in_Forall (P : Event → Prop) (x : Event) l :
  (∀ e, P e → e ≠ x) → Forall P l → x ∉ l.
Proof.
  intros HP Hl Hin. rewrite Forall_forall in Hl. by apply (HP x (Hl x Hin)).
Qed.

Lemma split_unique (x : Event) l1 l2 pre post :
  x ∉ l1 → x ∉ l2 → l1 ++ x :: l2 = pre ++ x :: post → pre = l1 ∧ post = l2.
Proof.
  intros H1 H2. revert pre. induction l1 as [|a l1 IH]; intros pre E.
  - destruct pre as [|y pre]; simpl in E.
    + by injection E as ->.
    + injection E as <- ->. exfalso. apply H2.
      apply elem_of_app. right. apply list_elem_of_here.
  - destruct pre as [|y pre]; simpl in E.
    + injection E as -> _. exfalso. apply H1, list_elem_of_here.
    + injection E as <- E. apply not_elem_of_cons in H1 as [_ H1].
      destruct (IH H1 _ E) as [-> ->]. done.
Qed.

Lemma first_phase_no_switch e : first_phase e → e ≠ SwitchVersion.
Proof. by intros [H _]. Qed.

Lemma reporting_no_switch pairs e : reporting pairs e → e ≠ SwitchVersion.
Proof. by intros [[H _] _]. Qed.

Lemma finalising_no_switch e : finalising e → e ≠ SwitchVersion.
Proof. intros [->|[->|[->|[c ->]]]]; discriminate. Qed.

(** C9: whenever a run of [evaluate] reaches the version switch, the call
    just before it closes connection 0, the connection of version 1; by
    then [calculate_avg_execution_time] has been called, through connection
    0, on every query object of the store, so every version-1 result is
    complete; everything before the switch goes through connection 0 only
    and everything after it through connection 1, the connection opened
    after the switch, the one exception being a repeated close. *)
Theorem v1_results_before_switch (pre post : list Event) :
  trace (run (evaluate w)).1 = pre ++ SwitchVersion :: post →
  (∃ pre0, pre = pre0 ++ [Close 0]) ∧
  (∀ q, q < length (heap (run (evaluate w)).1) →
        CalculateAvgExecutionTime 0 q (num_retries w) ∈ pre) ∧
  (∀ e c, e ∈ pre → conn_of e = Some c → c = 0) ∧
  (∀ e c, e ∈ post → conn_of e = Some c → c = 1 ∨ e = Close c).
Proof.
  intros E.
  destruct evaluate_shape as [(evs & fin & T & P & F)
                             |(pre0 & post0 & fin & T & P & R & F & Hin)].
  - exfalso. rewrite E in T.
    assert (Hno : SwitchVersion ∉ StartDb :: evs ++ fin).
    { apply not_elem_of_cons. split; [discriminate|].
      apply not_elem_of_app. split.
      - eapply not_in_Forall; [apply first_phase_no_switch|done].
      - eapply not_in_Forall; [apply finalising_no_switch|done]. }
    apply Hno. rewrite <- T. apply elem_of_app. right. apply list_elem_of_here.
  - rewrite E in T. symmetry in T. apply split_unique in T as [-> ->].
    + split; [by exists (StartDb :: pre0)|]. split; [done|]. split.
      * intros e c [->|He]%elem_of_cons; [discriminate|].
        apply elem_of_app in He as [He|He].
        -- rewrite Forall_forall in P. destruct (P e He) as (_ & _ & Hc). apply Hc.
        -- apply list_elem_of_singleton in He as ->. by intros [= <-].
      * intros e c He Hc. apply elem_of_app in He as [He|He].
        -- rewrite Forall_forall in R. destruct (R e He) as [[_ H] _]. by apply H.
        -- rewrite Forall_forall in F. right.
           destruct (finalising_first_phase_or e (F e He)) as [_ H]. by apply H.
    + apply not_elem_of_cons. split; [discriminate|].
      apply not_elem_of_app. split.
      * eapply not_in_Forall; [apply first_phase_no_switch|done].
      * apply not_elem_of_cons. split; [discriminate|]. apply not_elem_of_nil.
    + apply not_elem_of_app. split.
      * eapply not_in_Forall; [apply reporting_no_switch|done].
      * eapply not_in_Forall; [apply finalising_no_switch|done].
Qed.

Lemma zip_diagonal (l : list Ref) (a b : Ref) : (a, b) ∈ zip l l → a = b.
Proof.
  induction l as [|x l IH]; simpl.
  - by intros ?%elem_of_nil.
  - intros [[= -> ->]|H]%elem_of_cons; [done|by apply IH].
Qed.

(** Every pair handed to the report is one query object, twice. *)
Lemma add_query_same_object (a b : Ref) :
  AddQuery a b ∈ trace (run (evaluate w)).1 → a = b.
Proof.
  intros Hin.
  destruct evaluate_shape as [(evs & fin & T & P & F)
                             |(pre0 & post0 & fin & T & P & R & F & _)];
    rewrite T in Hin; clear T; rewrite Forall_forall in P, F.
  - apply elem_of_cons in Hin as [?|Hin]; [discriminate|].
    apply elem_of_app in Hin as [Hin|Hin].
    + by destruct (P _ Hin) as (_ & H & _); destruct (H a b).
    + destruct (F _ Hin) as [?|[?|[?|[? ?]]]]; discriminate.
  - rewrite Forall_forall in R.
    apply elem_of_app in Hin as [Hin|Hin].
    + apply elem_of_cons in Hin as [?|Hin]; [discriminate|].
      apply elem_of_app in Hin as [Hin|Hin].
      * by destruct (P _ Hin) as (_ & H & _); destruct (H a b).
      * apply list_elem_of_singleton in Hin. discriminate.
    + apply elem_of_cons in Hin as [?|Hin]; [discriminate|].
      apply elem_of_app in Hin as [Hin|Hin].
      * destruct (R _ Hin) as [_ H]. eapply zip_diagonal, H. reflexivity.
      * destruct (F _ Hin) as [?|[?|[?|[? ?]]]]; discriminate.
Qed.

End ScenarioFacts.

(** *** Runs on concrete worlds *)

Section Runs.
Import Scenario Worlds.

#[local] Open Scope list_scope.

(** C1, as stated, fails: when executing the first of two queries raises,
    [evaluate_queries_for_version] raises that error instead of returning
    a list with a failed result, the second query is never evaluated, and
    [evaluate] ends with the same error before the version switch. *)
Lemma query_failure_counterexample :
  (evaluate_queries_for_version first_query_fails 0 [0; 1] two_queries).2 =
    Raise (Failure (EvaluateSql 0 "EXPLAIN SELECT 1")) ∧
  trace (evaluate_queries_for_version first_query_fails 0 [0; 1] two_queries).1 =
    [Cursor 0; PrintProgress "SELECT 1" 1 2; GetExplain 0;
     EvaluateSql 0 "EXPLAIN SELECT 1"; CursorExit 0] ∧
  (run (evaluate first_query_fails)).2 =
    Raise (Failure (EvaluateSql 0 "EXPLAIN SELECT 1")) ∧
  (GetExplain 1 ∉ trace (run (evaluate first_query_fails)).1) ∧
  SwitchVersion ∉ trace (run (evaluate first_query_fails)).1.
Proof.
  repeat split; try reflexivity;
    (apply (bool_decide_unpack _); vm_compute; exact I).
Qed.

(** C2: when the first [connect_to_db] raises, the [finally] block builds
    and publishes the report and then fails on [conn.close()], [conn]
    being [None]: [stop_db] is not called. *)
Theorem teardown_skipped_without_connection :
  run (evaluate no_connection) =
    ({| trace := [StartDb; ConnectToDb 0; BuildReport; PublishReport "regression"];
        heap := []; opened := 0; conn := None |},
     Raise (AttributeError "'NoneType' object has no attribute 'close'")) ∧
  StopDb ∉ trace (run (evaluate no_connection)).1.
Proof.
  split; [reflexivity|]. apply (bool_decide_unpack _). vm_compute. exact I.
Qed.

Lemma v1_results_before_switch_witness :
  (∃ pre0, healthy_before = pre0 ++ [Close 0]) ∧
  (∀ q, q < length (heap (run (evaluate healthy)).1) →
        CalculateAvgExecutionTime 0 q (num_retries healthy) ∈ healthy_before) ∧
  (∀ e c, e ∈ healthy_before → conn_of e = Some c → c = 0) ∧
  (∀ e c, e ∈ healthy_after → conn_of e = Some c → c = 1 ∨ e = Close c).
Proof.
  apply (v1_results_before_switch healthy healthy_before healthy_after).
  reflexivity.
Defined.

(** C10: with one query, whose plan differs between the two versions, the
    run completes and hands the report the pair (0, 0): the same query
    object twice.  Its version-1 plan was read before the switch, but when
    the pair is made the object holds the plan and the timing of version
    2: no version-1 result is compared with a version-2 result. *)
Theorem comparison_of_one_object :
  (run (evaluate one_query)).2 = Ok () ∧
  (GetOptimizerScore plan_v1) ∈ trace (run (evaluate one_query)).1 ∧
  filter (λ e, is_add_query e = true) (trace (run (evaluate one_query)).1) =
    [AddQuery 0 0] ∧
  execution_plan <$> heap (run (evaluate one_query)).1 = [plan_v2] ∧
  execution_time <$> heap (run (evaluate one_query)).1 = [[2 # 1]%Q] ∧
  plan_v1 ≠ plan_v2.
Proof.
  repeat split; try reflexivity.
  - apply (bool_decide_unpack _). vm_compute. exact I.
  - discriminate.
Qed.

End Runs.

(** ** Further properties of the regression scenario *)

Section ScenarioMore.
Import Scenario.

#[local] Open Scope list_scope.

Variable w : World.

(** *** No exception is swallowed *)

Lemma strict_of_fail_stop {A} (m : M A) : fail_stop w m → strict w m.
Proof.
  intros H s. destruct (H s) as (evs & T & _ & K). by exists evs.
Qed.

Lemma strict_silent {A} (m : M A) :
  (∀ s, trace (m s).1 = trace s) → strict w m.
Proof. intros H. by apply strict_of_fail_stop, fail_stop_silent. Qed.

Lemma strict_call e : strict w (call w e).
Proof. apply strict_of_fail_stop, fail_stop_call. Qed.

Lemma strict_bind {A B} (m : M A) (f : A → M B) :
  strict w m → (∀ a, strict w (f a)) → strict w (m ≫= f).
Proof.
  intros Hm Hf s. rewrite bind_run.
  destruct (Hm s) as (evs1 & T1 & K1).
  destruct (m s) as [s1 [a|e]]; simpl in *.
  - destruct (Hf a s1) as (evs2 & T2 & K2).
    specialize (K1 a eq_refl). rewrite T1 in K2.
    exists (evs1 ++ evs2). rewrite T2, T1, app_assoc. split; [done|].
    intros b Hb. apply all_returned_app. split; [done|]. by eapply K2.
  - exists evs1. split; [done|]. discriminate.
Qed.

Lemma strict_try_finally {A} (body : M A) (fin : M unit) :
  strict w body → strict w fin → strict w (try_finally body fin).
Proof.
  intros Hb Hf s. rewrite try_finally_run.
  destruct (Hb s) as (evs1 & T1 & K1).
  destruct (body s) as [s1 r]; simpl in *.
  destruct (Hf s1) as (evs2 & T2 & K2). rewrite T1 in K2.
  exists (evs1 ++ evs2).
  destruct (fin s1) as [s2 [[]|e]]; simpl in *; rewrite T2, T1, app_assoc;
    (split; [done|]); [|discriminate].
  intros a ->. apply all_returned_app. split; [by eapply K1|by eapply K2].
Qed.

Lemma strict_connect_to_db : strict w (connect_to_db w).
Proof.
  intros s. exists [ConnectToDb (opened s)]. rewrite connect_run.
  destruct (raises w (trace s) (ConnectToDb (opened s))) eqn:E; simpl;
    (split; [done|]); [discriminate|done].
Qed.

Lemma strict_evaluate_queries_for_version c queries :
  strict w (evaluate_queries_for_version w c queries).
Proof.
  unfold evaluate_queries_for_version, with_cursor.
  apply strict_bind; [apply strict_call|intros _].
  apply strict_try_finally; [|apply strict_call].
  apply strict_of_fail_stop, fail_stop_evaluate_loop.
Qed.

Lemma strict_select_version c : strict w (select_version w c).
Proof.
  unfold select_version, with_cursor.
  apply strict_bind; [apply strict_call|intros _].
  apply strict_try_finally; [|apply strict_call].
  repeat first [ apply strict_bind; [|intros ?] | apply strict_call
               | by apply strict_silent ].
Qed.

Lemma strict_add_queries pairs : strict w (add_queries w pairs).
Proof.
  induction pairs as [|[a b] rest IH]; simpl.
  - by apply strict_silent.
  - apply strict_bind; [apply strict_call|by intros _].
Qed.

Lemma strict_close_conn : strict w (close_conn w).
Proof.
  unfold close_conn. apply strict_bind; [by apply strict_silent|].
  intros [c|]; [apply strict_call|by apply strict_silent].
Qed.

Lemma strict_evaluate : strict w (evaluate w).
Proof.
  unfold evaluate, evaluate_body, evaluate_finally.
  repeat first
    [ apply strict_evaluate_queries_for_version
    | apply strict_select_version
    | apply strict_add_queries
    | apply strict_close_conn
    | apply strict_connect_to_db
    | apply strict_try_finally
    | apply strict_bind; [|intros ?]
    | apply strict_call
    | by apply strict_silent ].
Qed.

(** [evaluate] swallows no exception: a run returns normally only when
    every call it made to a collaborator returned normally.  A failure of
    any query, of the switch or of the report therefore ends the run with
    an exception. *)
Theorem evaluate_returns_only_without_failure (h h' : list Event) (e : Event) :
  (run (evaluate w)).2 = Ok () →
  trace (run (evaluate w)).1 = h ++ e :: h' →
  raises w h e = false.
Proof.
  intros Hok E. destruct (strict_evaluate initial) as (evs & T & K).
  fold (run (evaluate w)) in T, K. simpl in T. rewrite T in E. subst evs.
  specialize (K () Hok). by apply all_returned_elem in K.
Qed.

(** *** Teardown *)

Lemma keeps_conn_frame {A} (m : M A) :
  (∀ s, conn (m s).1 = conn s) → keeps_conn m.
Proof. intros H s. by rewrite H. Qed.

Lemma keeps_conn_emits {A} P (m : M A) : emits P m → keeps_conn m.
Proof.
  intros H. apply keeps_conn_frame. intros s.
  by destruct (H s) as (_ & _ & _ & _ & -> & _).
Qed.

Lemma keeps_conn_bind {A B} (m : M A) (f : A → M B) :
  keeps_conn m → (∀ a, keeps_conn (f a)) → keeps_conn (m ≫= f).
Proof.
  intros Hm Hf s Hs. rewrite bind_run. specialize (Hm s Hs).
  destruct (m s) as [s1 [a|e]]; simpl in *; [by apply Hf|done].
Qed.

Lemma keeps_conn_connect_to_db : keeps_conn (connect_to_db w).
Proof.
  intros s Hs. rewrite connect_run.
  by destruct (raises w (trace s) (ConnectToDb (opened s))).
Qed.

Lemma keeps_conn_set_conn c : keeps_conn (set_conn c).
Proof. by intros s _. Qed.

Lemma keeps_conn_allocate objs : keeps_conn (allocate objs).
Proof. by apply keeps_conn_frame. Qed.

Lemma keeps_conn_after_connect (c : Conn) :
  keeps_conn
    (first_version ← select_version w c;
     call w GetTestModel;;
     call w (CreateTables c);;
     call w GetQueries;;
     h ← history;
     queries ← allocate (get_queries w h);
     first_version_queries ← evaluate_queries_for_version w c queries;
     close_conn w;;
     call w SwitchVersion;;
     c ← connect_to_db w;
     set_conn c;;
     second_version ← select_version w c;
     call w (DefineVersion first_version second_version);;
     second_version_queries ← evaluate_queries_for_version w c queries;
     add_queries w (zip first_version_queries second_version_queries)).
Proof.
  repeat first
    [ apply keeps_conn_connect_to_db
    | apply keeps_conn_set_conn
    | apply keeps_conn_allocate
    | eapply keeps_conn_emits, emits_select_version
    | eapply keeps_conn_emits, emits_evaluate_queries_for_version
    | apply (keeps_conn_emits (λ _, True)), emits_close_conn; done
    | apply (keeps_conn_emits (λ _, True)), emits_add_queries; done
    | apply (keeps_conn_emits (λ _, True)), emits_call; done
    | apply (keeps_conn_emits (λ _, True)), emits_history
    | apply keeps_conn_bind; [|intros ?] ].
Qed.

(** Teardown is reached despite failures in between: when [start_db], the
    first [connect_to_db], the two report calls and [conn.close()] do not
    raise, every run of [evaluate] ends with building and publishing the
    report, closing the connection and calling [stop_db], whatever else
    raises: a query, the model, the version switch or the second
    connection. *)
Theorem teardown_after_connection :
  (∀ h, raises w h StartDb = false) →
  (∀ h, raises w h (ConnectToDb 0) = false) →
  (∀ h, raises w h BuildReport = false) →
  (∀ h, raises w h (PublishReport "regression") = false) →
  (∀ h c, raises w h (Close c) = false) →
  ∃ h c,
    trace (run (evaluate w)).1 =
      h ++ [BuildReport; PublishReport "regression"; Close c; StopDb].
Proof.
  intros Hstart Hconnect Hbuild Hpublish Hclose.
  unfold run, evaluate. rewrite bind_run, call_run, Hstart. cbv beta iota.
  rewrite try_finally_state.
  assert (Hc : conn (evaluate_body w (record StartDb initial)).1 ≠ None).
  { unfold evaluate_body. rewrite bind_run, connect_run. simpl opened.
    rewrite Hconnect. cbv beta iota. rewrite bind_run. unfold set_conn at 1.
    cbv beta iota. by apply keeps_conn_after_connect. }
  destruct (evaluate_body w (record StartDb initial)) as [s2 r]. simpl in Hc |- *.
  destruct (conn s2) as [c|] eqn:Ec; [|done].
  exists (trace s2), c. unfold evaluate_finally.
  rewrite bind_run, call_run, Hbuild. cbv beta iota.
  rewrite bind_run, call_run, Hpublish. cbv beta iota.
  rewrite bind_run. unfold close_conn. rewrite bind_run. unfold get_conn.
  cbv beta iota. cbn [conn record]. rewrite Ec. cbv beta iota.
  rewrite call_run, Hclose. cbv beta iota. rewrite call_run. simpl.
  by rewrite <- !app_assoc.
Qed.

(** *** The cursor *)

Lemma emits_loop_per_query c total queries counter vq :
  emits (per_query c) (evaluate_loop w c total queries counter vq).
Proof.
  revert counter vq. induction queries as [|q rest IH]; intros counter vq; simpl.
  - apply emits_ret.
  - repeat first
      [ apply emits_bind; [|intros ?]
      | apply emits_try_finally
      | apply emits_try_except; [|intros ?]
      | apply emits_mret | apply emits_ret | apply emits_raise
      | apply emits_history | apply emits_deref | apply emits_assign
      | apply emits_call; by simpl ].
    apply IH.
Qed.

(** The cursor is released on every path: once [conn.cursor()] returned,
    [evaluate_queries_for_version] makes only the calls of its queries,
    all through that connection, and then leaves the cursor exactly once,
    as its last call, whether the loop returned or raised. *)
Theorem cursor_always_released (c : Conn) (queries : list Ref) (s : State) :
  raises w (trace s) (Cursor c) = false →
  ∃ evs,
    trace (evaluate_queries_for_version w c queries s).1 =
      trace s ++ Cursor c :: evs ++ [CursorExit c] ∧
    Forall (per_query c) evs.
Proof.
  intros Hc. unfold evaluate_queries_for_version, with_cursor.
  rewrite bind_run, call_run, Hc. cbv beta iota. rewrite try_finally_state.
  destruct (emits_loop_per_query c (length queries) queries 1 [] (record (Cursor c) s))
    as (evs & T & P & _).
  exists evs. rewrite call_state. simpl. rewrite T. simpl.
  split; [by rewrite <- !app_assoc|done].
Qed.

(** *** The pairs handed to the report *)

(** Whatever the collaborators do, every pair that [evaluate] hands to
    [report.add_query] consists of one and the same query object: the two
    collection phases append the objects of the one list [queries]. *)
Theorem report_pairs_are_one_object (a b : Ref) :
  AddQuery a b ∈ trace (run (evaluate w)).1 → a = b.
Proof. apply add_query_same_object. Qed.

(** *** The report on every path *)

(** Once [start_db] returned, every run of [evaluate] reaches its
    [finally] block: whatever raises in between, [report.build_report()]
    is called, and after it only calls of the [finally] block are made. *)
Theorem report_built_on_every_path :
  raises w [] StartDb = false →
  ∃ h fin,
    trace (run (evaluate w)).1 = h ++ BuildReport :: fin ∧ Forall finalising fin.
Proof.
  intros Hstart. unfold run, evaluate. rewrite bind_run, call_run.
  simpl trace. rewrite Hstart. cbv beta iota. rewrite try_finally_state.
  set (s2 := (evaluate_body w (record StartDb initial)).1). clearbody s2.
  unfold evaluate_finally. rewrite bind_run, call_run.
  assert (Hrest : emits finalising
            (call w (PublishReport "regression");; close_conn w;; call w StopDb)).
  { apply emits_bind; [apply emits_call; unfold finalising; auto | intros _].
    apply emits_bind; [apply emits_close_conn; unfold finalising; eauto 6 | intros _].
    apply emits_call; unfold finalising; auto. }
  destruct (Hrest (record BuildReport s2)) as (fin & T & P & _).
  destruct (raises w (trace s2) BuildReport); cbv beta iota.
  - exists (trace s2), []. by split.
  - exists (trace s2), fin. split; [|done]. rewrite T. simpl.
    by rewrite <- app_assoc.
Qed.

(** *** The store *)

Lemma touches_only_frame {A} refs (m : M A) :
  (∀ s, heap (m s).1 = heap s) → touches_only refs m.
Proof. intros H s. by rewrite H. Qed.

Lemma touches_only_call refs e : touches_only refs (call w e).
Proof. apply touches_only_frame. intros s. by rewrite call_state. Qed.

Lemma touches_only_deref refs q : touches_only refs (deref q).
Proof.
  apply touches_only_frame. intros s. unfold deref. by destruct (heap s !! q).
Qed.

Lemma touches_only_assign refs q o : q ∈ refs → touches_only refs (assign q o).
Proof.
  intros Hq s. simpl. split; [apply length_insert|].
  intros r Hr. apply list_lookup_insert_ne. by intros ->.
Qed.

Lemma touches_only_bind {A B} refs (m : M A) (f : A → M B) :
  touches_only refs m → (∀ a, touches_only refs (f a)) →
  touches_only refs (m ≫= f).
Proof.
  intros Hm Hf s. rewrite bind_run. destruct (Hm s) as [L1 F1].
  destruct (m s) as [s1 [a|e]]; simpl in *; [|done].
  destruct (Hf a s1) as [L2 F2]. split; [congruence|].
  intros r Hr. by rewrite F2, F1.
Qed.

Lemma touches_only_try_finally {A} refs (body : M A) (fin : M unit) :
  touches_only refs body → touches_only refs fin →
  touches_only refs (try_finally body fin).
Proof.
  intros Hb Hf s. rewrite try_finally_state. destruct (Hb s) as [L1 F1].
  destruct (Hf (body s).1) as [L2 F2]. split; [congruence|].
  intros r Hr. by rewrite F2, F1.
Qed.

Lemma touches_only_evaluate_query refs c total counter q vq :
  q ∈ refs → touches_only refs (evaluate_query w c total counter q vq).
Proof.
  intros Hq. unfold evaluate_query.
  repeat first
    [ apply touches_only_call | apply touches_only_deref
    | by apply touches_only_assign
    | by apply touches_only_frame
    | apply touches_only_bind; [|intros ?] ].
Qed.

Lemma touches_only_evaluate_loop refs c total queries counter vq :
  queries ⊆ refs → touches_only refs (evaluate_loop w c total queries counter vq).
Proof.
  revert counter vq. induction queries as [|q rest IH]; intros counter vq Hsub; simpl.
  - by apply touches_only_frame.
  - apply touches_only_bind.
    + intros s. rewrite try_finally_skip, try_except_reraise.
      apply touches_only_evaluate_query, Hsub, list_elem_of_here.
    + intros vq'. apply IH. intros r Hr. by apply Hsub, list_elem_of_further.
Qed.

(** Collecting a list of queries adds and removes no query object, and
    changes none but those of the list, whether it returns or raises. *)
Theorem collection_touches_only_its_queries (c : Conn) (queries : list Ref) (s : State) :
  length (heap (evaluate_queries_for_version w c queries s).1) = length (heap s) ∧
  ∀ r, r ∉ queries →
       heap (evaluate_queries_for_version w c queries s).1 !! r = heap s !! r.
Proof.
  revert s. change (touches_only queries (evaluate_queries_for_version w c queries)).
  unfold evaluate_queries_for_version, with_cursor.
  apply touches_only_bind; [apply touches_only_call|intros _].
  apply touches_only_try_finally; [|apply touches_only_call].
  by apply touches_only_evaluate_loop.
Qed.

(** *** The pairs of a run that returns *)

Lemma pairs_of_app l1 l2 : pairs_of (l1 ++ l2) = pairs_of l1 ++ pairs_of l2.
Proof. apply omap_app. Qed.

Lemma pairs_of_cons e evs : pairs_of (e :: evs) = pairs_of [e] ++ pairs_of evs.
Proof. apply (pairs_of_app [e] evs). Qed.

Lemma pairs_of_none (P : Event → Prop) evs :
  (∀ a b, ¬ P (AddQuery a b)) → Forall P evs → pairs_of evs = [].
Proof.
  intros HP. induction 1 as [|e evs He _ IH]; [done|].
  rewrite pairs_of_cons, IH.
  destruct e; try done. by destruct (HP _ _ He).
Qed.

Lemma pairs_of_through c evs : Forall (through c) evs → pairs_of evs = [].
Proof.
  apply pairs_of_none. intros a b (_ & _ & _ & H & _). by destruct (H a b).
Qed.

Lemma pairs_of_first_phase evs : Forall first_phase evs → pairs_of evs = [].
Proof.
  apply pairs_of_none. intros a b (_ & H & _). by destruct (H a b).
Qed.

Lemma pairs_of_finalising evs : Forall finalising evs → pairs_of evs = [].
Proof.
  apply pairs_of_none. intros a b [?|[?|[?|[? ?]]]]; discriminate.
Qed.

Lemma add_queries_ok pairs s s' u :
  add_queries w pairs s = (s', Ok u) →
  ∃ evs, trace s' = trace s ++ evs ∧ pairs_of evs = pairs ∧
         length (heap s') = length (heap s).
Proof.
  revert s. induction pairs as [|[a b] rest IH]; intros s; simpl.
  - intros [= <- _]. exists []. by rewrite app_nil_r.
  - intros H. apply bind_ok in H as ([] & s1 & H1 & H).
    apply call_ok in H1 as [-> _].
    destruct (IH _ H) as (evs & T & P & L). exists (AddQuery a b :: evs).
    split; [|split; [|done]].
    + rewrite T. simpl. by rewrite <- app_assoc.
    + by rewrite pairs_of_cons, P.
Qed.

Lemma select_version_ok c s s' v :
  select_version w c s = (s', Ok v) →
  ∃ evs, trace s' = trace s ++ evs ∧ pairs_of evs = [] ∧
         opened s' = opened s ∧ length (heap s') = length (heap s).
Proof.
  intros H. destruct (emits_select_version w c s) as (evs & T & P & O & _ & L).
  rewrite H in T, O, L. exists evs. by rewrite (pairs_of_through c).
Qed.

Lemma collection_ok c queries s s' vq :
  evaluate_queries_for_version w c queries s = (s', Ok vq) →
  vq = queries ∧
  ∃ evs, trace s' = trace s ++ evs ∧ pairs_of evs = [] ∧
         opened s' = opened s ∧ length (heap s') = length (heap s).
Proof.
  intros H.
  destruct (emits_evaluate_queries_for_version w c queries s)
    as (evs & T & P & O & _ & L).
  rewrite H in T, O, L. apply evaluate_queries_for_version_ok in H as [-> _].
  split; [done|]. exists evs. by rewrite (pairs_of_through c).
Qed.

Lemma after_switch_ok fv qs fvq s s' u :
  after_switch w fv qs fvq s = (s', Ok u) →
  ∃ evs, trace s' = trace s ++ evs ∧ pairs_of evs = zip fvq qs ∧
         length (heap s') = length (heap s).
Proof.
  unfold after_switch. intros H.
  apply bind_ok in H as (c & s1 & H1 & H).
  rewrite connect_run in H1.
  destruct (raises w (trace s) (ConnectToDb (opened s))); [discriminate|].
  injection H1 as <- <-.
  apply bind_ok in H as ([] & s2 & H2 & H). injection H2 as <-.
  apply bind_ok in H as (sv & s3 & H3 & H).
  apply select_version_ok in H3 as (e1 & T1 & P1 & _ & L1).
  apply bind_ok in H as ([] & s4 & H4 & H). apply call_ok in H4 as [-> _].
  apply bind_ok in H as (svq & s5 & H5 & H).
  apply collection_ok in H5 as (-> & e2 & T2 & P2 & _ & L2).
  apply add_queries_ok in H as (e3 & T3 & P3 & L3).
  exists (ConnectToDb (opened s) :: e1 ++ DefineVersion fv sv :: e2 ++ e3).
  split; [|split].
  - rewrite T3, T2. simpl. rewrite T1. simpl.
    repeat (rewrite <- ?app_assoc; simpl). done.
  - change (ConnectToDb (opened s) :: e1 ++ DefineVersion fv sv :: e2 ++ e3)
      with ([ConnectToDb (opened s)] ++ e1 ++ [DefineVersion fv sv] ++ e2 ++ e3).
    rewrite !pairs_of_app, P1, P2, P3. done.
  - rewrite L3, L2. simpl. by rewrite L1.
Qed.

Lemma zip_same (l : list Ref) : zip l l = (λ q, (q, q)) <$> l.
Proof. induction l as [|x l IH]; simpl; [done|by rewrite IH]. Qed.

(** A run of [evaluate] that returns normally hands the report one pair
    per query object, in the order of the model's list, and each pair is
    the object with itself. *)
Theorem pairs_of_a_returning_run :
  (run (evaluate w)).2 = Ok () →
  pairs_of (trace (run (evaluate w)).1) =
    (λ q, (q, q)) <$> seq 0 (length (heap (run (evaluate w)).1)).
Proof.
  unfold run. destruct (evaluate w initial) as [s' r] eqn:E. simpl. intros ->.
  unfold evaluate in E. apply bind_ok in E as ([] & s1 & H1 & E).
  apply call_ok in H1 as [-> _].
  apply try_finally_ok in E as (s2 & Hbody & Hfin).
  destruct (emits_evaluate_finally w s2) as (fin & Tf & Pf & _ & _ & Lf).
  rewrite Hfin in Tf, Lf. simpl in Tf, Lf.
  rewrite evaluate_body_split in Hbody.
  apply bind_ok in Hbody as ([[fv qs] fvq] & sb & Hb & Hbody).
  destruct (before_switch_spec w (record StartDb initial) eq_refl)
    as (evs & Tb & Pb & Hok).
  rewrite Hb in Tb, Hok. simpl in Tb, Hok.
  destruct (Hok fv qs fvq eq_refl) as (_ & _ & -> & Hqs & _). clear Hok.
  rewrite Nat.sub_0_r in Hqs.
  apply bind_ok in Hbody as ([] & sw & Hw & Hafter). apply call_ok in Hw as [-> _].
  apply after_switch_ok in Hafter as (ea & Ta & Pa & La). simpl in Ta, La.
  simpl in Pa.
  rewrite Tf, Ta, Tb, Lf, La, <- Hqs, !pairs_of_app, Pa, (pairs_of_cons StartDb).
  rewrite (pairs_of_first_phase evs Pb), (pairs_of_finalising fin Pf), zip_same.
  simpl. by rewrite app_nil_r.
Qed.

(** *** The progress lines *)

Lemma progress_of_app l1 l2 :
  progress_of (l1 ++ l2) = progress_of l1 ++ progress_of l2.
Proof. apply omap_app. Qed.

Lemma progress_of_none evs :
  Forall (λ e, progress_of [e] = []) evs → progress_of evs = [].
Proof.
  induction 1 as [|e evs He _ IH]; [done|].
  change (e :: evs) with ([e] ++ evs). by rewrite progress_of_app, He, IH.
Qed.

Lemma rest_prints_nothing c q vq (o : Query) :
  emits (λ e, progress_of [e] = [])
    (call w (GetExplain q);;
     call w (EvaluateSql c (get_explain w o));;
     call w (FetchAll c);;
     h ← history;
     o ← deref q;
     assign q (set_execution_plan o (join_lines (fetchall w h)));;
     o ← deref q;
     call w (GetOptimizerScore (execution_plan o));;
     assign q (set_optimizer_score o (get_optimizer_score_from_plan w (execution_plan o)));;
     call w (CalculateAvgExecutionTime c q (num_retries w));;
     h ← history;
     o ← deref q;
     assign q (calculate_avg_execution_time w h o (num_retries w));;
     ret (vq ++ [q])).
Proof.
  repeat first
    [ apply emits_bind; [|intros ?]
    | apply emits_mret | apply emits_ret
    | apply emits_history | apply emits_deref | apply emits_assign
    | apply emits_call; reflexivity ].
Qed.

Lemma deref_run q s :
  deref q s =
  match heap s !! q with
  | Some o => (s, Ok o)
  | None => (s, Raise (Dangling q))
  end.
Proof. reflexivity. Qed.

(** One query prints at most one progress line, with its counter, and
    exactly one when its collection returns. *)
Lemma evaluate_query_progress c total counter q vq s :
  ∃ (evs : list Event) (k : nat),
    trace (evaluate_query w c total counter q vq s).1 = trace s ++ evs ∧
    progress_of evs = (λ i, (i, total)) <$> seq counter k ∧
    (k ≤ 1)%nat ∧
    ∀ a, (evaluate_query w c total counter q vq s).2 = Ok a → k = 1.
Proof.
  unfold evaluate_query. rewrite bind_run, deref_run.
  destruct (heap s !! q) as [o|].
  2:{ exists [], 0. simpl. rewrite app_nil_r.
      split; [done|]. split; [done|]. split; [lia|discriminate]. }
  rewrite bind_run, call_run.
  destruct (raises w (trace s) (PrintProgress (slice_to 40 (query o)) counter total)).
  { exists [PrintProgress (slice_to 40 (query o)) counter total], 1. simpl.
    split; [done|]. split; [done|]. split; [lia|done]. }
  cbv beta iota.
  destruct (rest_prints_nothing c q vq o
              (record (PrintProgress (slice_to 40 (query o)) counter total) s))
    as (evs & T & P & _).
  exists (PrintProgress (slice_to 40 (query o)) counter total :: evs), 1.
  rewrite T. simpl. rewrite <- app_assoc. split; [done|]. split; [|done].
  change (progress_of ([PrintProgress (slice_to 40 (query o)) counter total] ++ evs)
          = [(counter, total)]).
  by rewrite progress_of_app, (progress_of_none evs P).
Qed.

Lemma evaluate_loop_progress c total queries counter vq s :
  ∃ (evs : list Event) (k : nat),
    trace (evaluate_loop w c total queries counter vq s).1 = trace s ++ evs ∧
    progress_of evs = (λ i, (i, total)) <$> seq counter k ∧
    (k ≤ length queries)%nat ∧
    ∀ a, (evaluate_loop w c total queries counter vq s).2 = Ok a →
         k = length queries.
Proof.
  revert counter vq s. induction queries as [|q rest IH]; intros counter vq s; simpl.
  - exists [], 0. simpl. rewrite app_nil_r.
    split; [done|]. split; [done|]. split; [lia|done].
  - rewrite bind_run, try_finally_skip, try_except_reraise.
    destruct (evaluate_query_progress c total counter q vq s)
      as (evs1 & k1 & T1 & P1 & B1 & K1).
    destruct (evaluate_query w c total counter q vq s) as [s1 [vq1|x]];
      simpl in T1, K1.
    + specialize (K1 vq1 eq_refl). subst k1.
      destruct (IH (counter + 1) vq1 s1) as (evs2 & k2 & T2 & P2 & B2 & K2).
      exists (evs1 ++ evs2), (S k2). rewrite T2, T1, app_assoc.
      split; [done|]. split; [|split; [lia|]].
      * rewrite progress_of_app, P1, P2. simpl. by rewrite Nat.add_1_r.
      * intros a Ha. by rewrite (K2 a Ha).
    + exists evs1, k1. simpl. split; [done|]. split; [done|].
      split; [lia|discriminate].
Qed.

(** The progress lines of a collection are numbered consecutively from 1,
    each with the length of the query list as its total: [1/n], [2/n] and
    so on, one for every query when the collection returns and no more
    than that when it raises. *)
Theorem progress_lines_count_up (c : Conn) (queries : list Ref) (s : State) :
  ∃ (evs : list Event) (k : nat),
    trace (evaluate_queries_for_version w c queries s).1 = trace s ++ evs ∧
    progress_of evs = (λ i, (i, length queries)) <$> seq 1 k ∧
    (k ≤ length queries)%nat ∧
    ∀ vq, (evaluate_queries_for_version w c queries s).2 = Ok vq →
          k = length queries.
Proof.
  unfold evaluate_queries_for_version, with_cursor. rewrite bind_run, call_run.
  destruct (raises w (trace s) (Cursor c)); cbv beta iota.
  { exists [Cursor c], 0. simpl.
    split; [done|]. split; [done|]. split; [lia|discriminate]. }
  rewrite try_finally_run.
  destruct (evaluate_loop_progress c (length queries) queries 1 [] (record (Cursor c) s))
    as (evs & k & T & P & B & K).
  destruct (evaluate_loop w c (length queries) queries 1 [] (record (Cursor c) s))
    as [s1 r]. simpl in T, K. cbn [fst snd]. rewrite call_run.
  exists (Cursor c :: evs ++ [CursorExit c]), k. split; [|split; [|split; [done|]]].
  - destruct (raises w (trace s1) (CursorExit c)); simpl; rewrite T; simpl;
      by rewrite <- !app_assoc.
  - change (Cursor c :: evs ++ [CursorExit c])
      with ([Cursor c] ++ evs ++ [CursorExit c]).
    rewrite !progress_of_app, P. simpl. by rewrite app_nil_r.
  - intros vq. destruct (raises w (trace s1) (CursorExit c)); [discriminate|].
    simpl. apply K.
Qed.

End ScenarioMore.

Section RunsMore.
Import Scenario Worlds.

#[local] Open Scope list_scope.

Lemma evaluate_returns_only_without_failure_witness :
  raises healthy healthy_before SwitchVersion = false.
Proof.
  apply (evaluate_returns_only_without_failure healthy healthy_before healthy_after);
    reflexivity.
Defined.

Lemma teardown_after_connection_witness :
  ∃ h c,
    trace (run (evaluate first_query_fails)).1 =
      h ++ [BuildReport; PublishReport "regression"; Close c; StopDb].
Proof.
  apply (teardown_after_connection first_query_fails); reflexivity.
Defined.

Lemma cursor_always_released_witness :
  ∃ evs,
    trace (evaluate_queries_for_version first_query_fails 0 [0; 1] two_queries).1 =
      trace two_queries ++ Cursor 0 :: evs ++ [CursorExit 0] ∧
    Forall (per_query 0) evs.
Proof.
  apply (cursor_always_released first_query_fails 0 [0; 1] two_queries).
  reflexivity.
Defined.

Lemma report_pairs_are_one_object_witness : 1 = 1.
Proof.
  apply (report_pairs_are_one_object healthy 1 1).
  apply (bool_decide_unpack _). vm_compute. exact I.
Defined.

Lemma report_built_on_every_path_witness :
  ∃ h fin,
    trace (run (evaluate no_connection)).1 = h ++ BuildReport :: fin ∧
    Forall finalising fin.
Proof. apply (report_built_on_every_path no_connection). reflexivity. Defined.

Lemma pairs_of_a_returning_run_witness :
  pairs_of (trace (run (evaluate healthy)).1) =
    (λ q, (q, q)) <$> seq 0 (length (heap (run (evaluate healthy)).1)).
Proof. apply (pairs_of_a_returning_run healthy). reflexivity. Defined.

End RunsMore.

(** ** Further properties of the main program *)

Section MainMore.
Import Main.

#[local] Open Scope list_scope.

Variable w : World.

Lemma main_bind_run {A B} (m : M A) (f : A → M B) (t : list Effect) :
  (m ≫= f) t =
  match m t with
  | (t', Ok a) => f a t'
  | (t', Raise e) => (t', Raise e)
  end.
Proof. reflexivity. Qed.

Lemma main_call_run e t :
  call w e t = (t ++ [e], if raises w t e then Raise (Failure e) else Ok ()).
Proof. unfold call. by destruct (raises w t e). Qed.

Lemma info_lines_run (lines : list string) (t : list Effect) :
  info_lines lines t = (t ++ ((λ l, LogInfo (ConfigurationLine l)) <$> lines), Ok ()).
Proof.
  revert t. induction lines as [|l rest IH]; intros t; simpl.
  - by rewrite app_nil_r.
  - rewrite main_bind_run. unfold info at 1. cbv beta iota. rewrite IH.
    by rewrite <- app_assoc.
Qed.

(** The trace of a [collect] run up to the check of [--output]. *)
Lemma collect_action_run (args : Args) (t : list Effect) :
  collect_action w args t =
  ((if output args is None
    then call w (PrintLine "ARGUMENTS VALIDATION ERROR: --output arg is required for collect task");;
         raise (SystemExit 1)
    else ret ());;
   (if yes args then ret ()
    else call w (Input "Validate configuration carefully and press Enter..."));;
   info EvaluatingScenario;;
   call w ScenarioEvaluate)
    (t ++ [LogInfo Blank; LogInfo CollectingResults; LogInfo ConfigurationHeader]
       ++ ((λ l, LogInfo (ConfigurationLine l)) <$> config_lines w)
       ++ [LogInfo Separator]).
Proof.
  unfold collect_action. rewrite main_bind_run. unfold info at 1. cbv beta iota.
  rewrite main_bind_run. unfold info at 1. cbv beta iota.
  rewrite main_bind_run. unfold info at 1. cbv beta iota.
  rewrite main_bind_run, info_lines_run. cbv beta iota.
  rewrite main_bind_run. unfold info at 1. cbv beta iota.
  by rewrite <- !app_assoc.
Qed.

Lemma main_collect_run (args : Args) :
  action args = "collect" →
  run (main w args) = collect_action w args [LogInfo Separator; LogInfo Banner].
Proof.
  intros Ha. unfold run, main. rewrite !main_bind_run. unfold info.
  cbv beta iota. by rewrite Ha, String.eqb_refl.
Qed.

Lemma main_report_run (args : Args) :
  action args = "report" →
  run (main w args) = dispatch w args (report_preamble args).
Proof.
  intros Ha. unfold run, main. rewrite !main_bind_run. unfold info.
  cbv beta iota. rewrite Ha. simpl String.eqb. cbv beta iota.
  unfold report_action. rewrite !main_bind_run. unfold info. by cbv beta iota.
Qed.

(** A [collect] run without [--output] never evaluates the scenario and
    never prompts: after the configuration is logged, the validation
    message is printed and the program exits with status 1. *)
Theorem collect_requires_output (args : Args) :
  action args = "collect" →
  output args = None →
  (run (main w args)).1 =
    collect_preamble w ++
    [PrintLine "ARGUMENTS VALIDATION ERROR: --output arg is required for collect task"] ∧
  ((run (main w args)).2 = Raise (SystemExit 1) ∨
   (run (main w args)).2 =
     Raise (Failure (PrintLine "ARGUMENTS VALIDATION ERROR: --output arg is required for collect task"))) ∧
  ScenarioEvaluate ∉ (run (main w args)).1.
Proof.
  intros Ha Ho.
  assert (E : (run (main w args)).1 =
    collect_preamble w ++
    [PrintLine "ARGUMENTS VALIDATION ERROR: --output arg is required for collect task"] ∧
    ((run (main w args)).2 = Raise (SystemExit 1) ∨
     (run (main w args)).2 =
       Raise (Failure (PrintLine "ARGUMENTS VALIDATION ERROR: --output arg is required for collect task")))).
  { rewrite (main_collect_run args Ha), collect_action_run, Ho.
    rewrite main_bind_run, main_bind_run, main_call_run.
    unfold collect_preamble.
    destruct (raises w _ _); cbv beta iota; simpl; rewrite <- ?app_assoc; auto. }
  destruct E as [E1 E2]. split; [done|]. split; [done|].
  rewrite E1. unfold collect_preamble.
  rewrite !not_elem_of_app, !not_elem_of_cons.
  repeat split; try discriminate; try apply not_elem_of_nil.
  by intros (l & H & _)%list_elem_of_fmap.
Qed.

(** An action that is neither [collect] nor [report] is not rejected: the
    program logs its banner and returns normally, doing nothing. *)
Theorem unknown_action_is_silent (args : Args) :
  action args ≠ "collect" →
  action args ≠ "report" →
  run (main w args) = ([LogInfo Separator; LogInfo Banner], Ok ()).
Proof.
  intros Hc Hr. unfold run, main. rewrite !main_bind_run. unfold info.
  cbv beta iota.
  destruct (String.eqb_spec (action args) "collect"); [done|].
  destruct (String.eqb_spec (action args) "report"); done.
Qed.

(** A [collect] run with [--output] evaluates the scenario exactly when it
    is confirmed: with [--yes] at once and without a prompt; otherwise
    after the prompt, and not at all when the prompt raises. *)
Theorem collect_confirmation (args : Args) (o : string) :
  action args = "collect" →
  output args = Some o →
  (yes args = true →
     (run (main w args)).1 =
       collect_preamble w ++ [LogInfo EvaluatingScenario; ScenarioEvaluate]) ∧
  (yes args = false →
     raises w (collect_preamble w)
            (Input "Validate configuration carefully and press Enter...") = false →
     (run (main w args)).1 =
       collect_preamble w ++
       [Input "Validate configuration carefully and press Enter...";
        LogInfo EvaluatingScenario; ScenarioEvaluate]) ∧
  (yes args = false →
     raises w (collect_preamble w)
            (Input "Validate configuration carefully and press Enter...") = true →
     run (main w args) =
       (collect_preamble w ++
          [Input "Validate configuration carefully and press Enter..."],
        Raise (Failure (Input "Validate configuration carefully and press Enter...")))).
Proof.
  intros Ha Ho. rewrite (main_collect_run args Ha), collect_action_run, Ho.
  change ([LogInfo Separator; LogInfo Banner] ++
          [LogInfo Blank; LogInfo CollectingResults; LogInfo ConfigurationHeader] ++
          ((λ l, LogInfo (ConfigurationLine l)) <$> config_lines w) ++
          [LogInfo Separator]) with (collect_preamble w).
  generalize (collect_preamble w). intros pre.
  repeat split.
  - intros ->. cbv [mbind M_bind bind ret info call].
    destruct (raises w _ ScenarioEvaluate); simpl; by rewrite <- app_assoc.
  - intros -> Hin. cbv [mbind M_bind bind ret info call]. rewrite Hin.
    destruct (raises w _ ScenarioEvaluate); simpl; by rewrite <- !app_assoc.
  - intros -> Hin. cbv [mbind M_bind bind ret info call]. by rewrite Hin.
Qed.

(** *** The first failure ends the run *)

Lemma main_all_returned_app h l1 l2 :
  all_returned w h (l1 ++ l2) ↔ all_returned w h l1 ∧ all_returned w (h ++ l1) l2.
Proof.
  revert h. induction l1 as [|e l1 IH]; intros h; simpl.
  - rewrite app_nil_r. tauto.
  - rewrite IH, <- app_assoc. simpl. tauto.
Qed.

Lemma main_returned_but_last_cons h e l :
  l ≠ [] →
  returned_but_last w h (e :: l) ↔
  (is_call e = true → raises w h e = false) ∧ returned_but_last w (h ++ [e]) l.
Proof. by destruct l. Qed.

Lemma main_returned_but_last_app h l1 l2 :
  all_returned w h l1 → returned_but_last w (h ++ l1) l2 →
  returned_but_last w h (l1 ++ l2).
Proof.
  revert h. induction l1 as [|e l1 IH]; intros h.
  - simpl. rewrite app_nil_r. tauto.
  - intros [H1 H2] H3.
    replace (h ++ e :: l1) with ((h ++ [e]) ++ l1) in H3 by (by rewrite <- app_assoc).
    specialize (IH _ H2 H3). change ((e :: l1) ++ l2) with (e :: (l1 ++ l2)).
    destruct (l1 ++ l2) as [|e0 l]; [done|].
    apply main_returned_but_last_cons; done.
Qed.

Lemma main_all_returned_elem h h1 e h2 :
  all_returned w h (h1 ++ e :: h2) → is_call e = true → raises w (h ++ h1) e = false.
Proof. rewrite main_all_returned_app. simpl. tauto. Qed.

Lemma main_returned_but_last_elem h h1 e h2 :
  returned_but_last w h (h1 ++ e :: h2) → h2 ≠ [] → is_call e = true →
  raises w (h ++ h1) e = false.
Proof.
  revert h. induction h1 as [|a h1 IH]; intros h.
  - simpl. rewrite app_nil_r. intros H Hne.
    apply main_returned_but_last_cons in H; [tauto|done].
  - change ((a :: h1) ++ e :: h2) with (a :: (h1 ++ e :: h2)). intros H Hne.
    apply main_returned_but_last_cons in H as [_ H]; [|by destruct h1].
    replace (h ++ a :: h1) with ((h ++ [a]) ++ h1) by (by rewrite <- app_assoc).
    by apply IH.
Qed.

Lemma main_fail_stop_silent {A} (m : M A) :
  (∀ t, (m t).1 = t) → fail_stop w m.
Proof. intros H t. exists []. rewrite H, app_nil_r. done. Qed.

Lemma main_fail_stop_info line : fail_stop w (info line).
Proof.
  intros t. exists [LogInfo line]. simpl. split; [done|]. split; [done|].
  intros _ _. split; [discriminate|done].
Qed.

Lemma main_fail_stop_call e : fail_stop w (call w e).
Proof.
  intros t. exists [e]. rewrite main_call_run. simpl. split; [done|]. split; [done|].
  intros []. by destruct (raises w t e).
Qed.

Lemma main_fail_stop_bind {A B} (m : M A) (f : A → M B) :
  fail_stop w m → (∀ a, fail_stop w (f a)) → fail_stop w (m ≫= f).
Proof.
  intros Hm Hf t. rewrite main_bind_run.
  destruct (Hm t) as (evs1 & T1 & R1 & K1).
  destruct (m t) as [t1 [a|e]]; simpl in *.
  - subst t1. destruct (Hf a (t ++ evs1)) as (evs2 & T2 & R2 & K2).
    specialize (K1 a eq_refl).
    exists (evs1 ++ evs2). rewrite T2, app_assoc. split; [done|]. split.
    + by apply main_returned_but_last_app.
    + intros b Hb. apply main_all_returned_app. split; [done|]. by eapply K2.
  - exists evs1. split; [done|]. split; [done|]. discriminate.
Qed.

Ltac main_fail_stop_steps :=
  repeat first
    [ apply main_fail_stop_call | apply main_fail_stop_info
    | by apply main_fail_stop_silent
    | apply main_fail_stop_bind; [|intros ?] ].

Lemma main_fail_stop_info_lines lines : fail_stop w (info_lines lines).
Proof.
  induction lines as [|l rest IH]; simpl.
  - by apply main_fail_stop_silent.
  - apply main_fail_stop_bind; [apply main_fail_stop_info|by intros _].
Qed.

Lemma main_fail_stop_load_if path : fail_stop w (load_if w path).
Proof. unfold load_if, load. destruct (truthy path); main_fail_stop_steps. Qed.

Lemma main_fail_stop_dispatch args : fail_stop w (dispatch w args).
Proof.
  unfold dispatch, yb_pg_report, v1_v2_report, selectivity_report.
  repeat match goal with
         | |- context [if ?b then _ else _] => destruct b
         end;
    repeat first [ apply main_fail_stop_load_if | progress main_fail_stop_steps ].
Qed.

Lemma main_fail_stop_main args : fail_stop w (main w args).
Proof.
  unfold main, collect_action, report_action.
  apply main_fail_stop_bind; [apply main_fail_stop_info|intros _].
  apply main_fail_stop_bind; [apply main_fail_stop_info|intros _].
  destruct (String.eqb (action args) "collect").
  - destruct (output args), (yes args);
      repeat first [ apply main_fail_stop_info_lines
                   | progress main_fail_stop_steps ].
  - destruct (String.eqb (action args) "report"); [|by apply main_fail_stop_silent].
    repeat first [ apply main_fail_stop_dispatch
                 | apply main_fail_stop_info
                 | apply main_fail_stop_bind; [|intros ?] ].
Qed.

(** The main program stops at the first call that raises: whatever the
    action and the type, after a loader, report, prompt or scenario call
    that raised nothing more is done, and the run ends with an exception.
    In particular a report is never generated when loading a results file
    failed. *)
Theorem main_stops_at_first_failure (args : Args) (h h' : list Effect) (e : Effect) :
  (run (main w args)).1 = h ++ e :: h' →
  is_call e = true →
  raises w h e = true →
  h' = [] ∧ ∃ x, (run (main w args)).2 = Raise x.
Proof.
  intros E Hcall He. destruct (main_fail_stop_main args []) as (evs & T & R & K).
  fold (run (main w args)) in T, K. simpl in T. rewrite T in E. subst evs. split.
  - destruct h' as [|y h']; [done|]. exfalso.
    apply main_returned_but_last_elem in R; [|done..]. simpl in R. congruence.
  - destruct (run (main w args)).2 as [[]|x] eqn:Er; [|eauto]. exfalso.
    specialize (K () eq_refl). apply main_all_returned_elem in K; [|done].
    simpl in K. congruence.
Qed.

(** *** What a report is generated from *)

Ltac run_calls :=
  cbv [mbind M_bind bind ret call mret M_ret load load_if];
  repeat match goal with
         | |- context [raises w ?t ?e] => destruct (raises w t e)
         end;
  simpl.

Ltac find_generate :=
  let H := fresh "H" in
  intros H; repeat (apply elem_of_app in H as [H|H]);
  first [ by left
        | apply list_elem_of_singleton in H;
          first [ discriminate H | injection H as -> ->; by right ] ].

Lemma yb_pg_report_generates args r construct t r' inputs :
  GenerateReport r' inputs ∈ (yb_pg_report w args r construct t).1 →
  GenerateReport r' inputs ∈ t ∨ (r' = r ∧ inputs = yb_pg_inputs args).
Proof.
  unfold yb_pg_report, yb_pg_inputs, pg_input, load_if.
  destruct construct, (truthy (pg_results args)); run_calls; find_generate.
Qed.

Lemma v1_v2_report_generates args r t r' inputs :
  GenerateReport r' inputs ∈ (v1_v2_report w args r t).1 →
  GenerateReport r' inputs ∈ t ∨ (r' = r ∧ inputs = v1_v2_inputs args).
Proof. unfold v1_v2_report, v1_v2_inputs. run_calls; find_generate. Qed.

Lemma selectivity_report_generates args t r' inputs :
  GenerateReport r' inputs ∈ (selectivity_report w args t).1 →
  GenerateReport r' inputs ∈ t ∨
  (r' = SelectivityReport ∧ inputs = selectivity_inputs args).
Proof. unfold selectivity_report, selectivity_inputs. run_calls; find_generate. Qed.

Lemma type_is_true ty name : type_is ty name = true → ty = Some name.
Proof.
  destruct ty as [s|]; simpl; [|done]. by intros ->%String.eqb_eq.
Qed.

Lemma preamble_generates_nothing args r inputs :
  GenerateReport r inputs ∉ report_preamble args.
Proof.
  unfold report_preamble. rewrite !not_elem_of_cons.
  repeat split; try discriminate. apply not_elem_of_nil.
Qed.

(** A report is generated only by the branch of its type, and only from
    complete inputs: the taqo, score, score_xls and comparison reports get
    the [--results] queries and the [--pg-results] queries, or [None] in
    their place when that argument is missing or empty; the two regression
    reports get the [--v1-results] and [--v2-results] queries; the
    selectivity report its six result sets in order. *)
Theorem report_inputs (args : Args) (r : Report) (inputs : list Loaded) :
  action args = "report" →
  GenerateReport r inputs ∈ (run (main w args)).1 →
  (type args = Some "taqo" ∧ r = TaqoReport ∧ inputs = yb_pg_inputs args) ∨
  (type args = Some "score" ∧ r = ScoreReport ∧ inputs = yb_pg_inputs args) ∨
  (type args = Some "score_xls" ∧ r = ScoreXlsReport ∧ inputs = yb_pg_inputs args) ∨
  (type args = Some "regression" ∧ r = RegressionReport ∧ inputs = v1_v2_inputs args) ∨
  (type args = Some "regression_xls" ∧ r = RegressionXlsReport ∧
     inputs = v1_v2_inputs args) ∨
  (type args = Some "comparison" ∧ r = ComparisonReport ∧ inputs = yb_pg_inputs args) ∨
  (type args = Some "selectivity" ∧ r = SelectivityReport ∧
     inputs = selectivity_inputs args).
Proof.
  intros Ha. rewrite (main_report_run args Ha). unfold dispatch.
  pose proof (preamble_generates_nothing args r inputs) as Hpre.
  destruct (type_is (type args) "taqo") eqn:E1.
  { intros [?|[-> ->]]%yb_pg_report_generates; [done|].
    apply type_is_true in E1. auto. }
  destruct (type_is (type args) "score") eqn:E2.
  { intros [?|[-> ->]]%yb_pg_report_generates; [done|].
    apply type_is_true in E2. auto. }
  destruct (type_is (type args) "score_xls") eqn:E3.
  { intros [?|[-> ->]]%yb_pg_report_generates; [done|].
    apply type_is_true in E3. auto 6. }
  destruct (type_is (type args) "regression") eqn:E4.
  { intros [?|[-> ->]]%v1_v2_report_generates; [done|].
    apply type_is_true in E4. auto 7. }
  destruct (type_is (type args) "regression_xls") eqn:E5.
  { intros [?|[-> ->]]%v1_v2_report_generates; [done|].
    apply type_is_true in E5. auto 8. }
  destruct (type_is (type args) "comparison") eqn:E6.
  { intros [?|[-> ->]]%yb_pg_report_generates; [done|].
    apply type_is_true in E6. auto 9. }
  destruct (type_is (type args) "selectivity") eqn:E7.
  { intros [?|[-> ->]]%selectivity_report_generates; [done|].
    apply type_is_true in E7. auto 10. }
  simpl. done.
Qed.

End MainMore.

Section MainRuns.
Import Main.

#[local] Open Scope list_scope.

Lemma collect_requires_output_witness :
  (run (main quiet (collect_args None false))).1 =
    collect_preamble quiet ++
    [PrintLine "ARGUMENTS VALIDATION ERROR: --output arg is required for collect task"] ∧
  ((run (main quiet (collect_args None false))).2 = Raise (SystemExit 1) ∨
   (run (main quiet (collect_args None false))).2 =
     Raise (Failure (PrintLine "ARGUMENTS VALIDATION ERROR: --output arg is required for collect task"))) ∧
  ScenarioEvaluate ∉ (run (main quiet (collect_args None false))).1.
Proof.
  apply (collect_requires_output quiet (collect_args None false)); reflexivity.
Defined.

Lemma unknown_action_is_silent_witness :
  run (main quiet (bare_args "colect" None)) =
    ([LogInfo Separator; LogInfo Banner], Ok ()).
Proof.
  apply (unknown_action_is_silent quiet (bare_args "colect" None)); discriminate.
Defined.

Lemma collect_confirmation_witness :
  (run (main quiet (collect_args (Some "out") true))).1 =
    collect_preamble quiet ++ [LogInfo EvaluatingScenario; ScenarioEvaluate].
Proof.
  apply (collect_confirmation quiet (collect_args (Some "out") true) "out");
    reflexivity.
Defined.

Lemma main_stops_at_first_failure_witness :
  @nil Effect = [] ∧ ∃ x, (run (main broken_loader taqo_args)).2 = Raise x.
Proof.
  apply (main_stops_at_first_failure broken_loader taqo_args
           (report_preamble taqo_args)
           [] (GetQueriesFromPreviousResult (Some "yb.json")));
    reflexivity.
Defined.

Lemma report_inputs_witness :
  (type taqo_args = Some "taqo" ∧ TaqoReport = TaqoReport ∧
     [QueriesFrom (Some "yb.json"); PyNone] = yb_pg_inputs taqo_args) ∨
  (type taqo_args = Some "score" ∧ TaqoReport = ScoreReport ∧
     [QueriesFrom (Some "yb.json"); PyNone] = yb_pg_inputs taqo_args) ∨
  (type taqo_args = Some "score_xls" ∧ TaqoReport = ScoreXlsReport ∧
     [QueriesFrom (Some "yb.json"); PyNone] = yb_pg_inputs taqo_args) ∨
  (type taqo_args = Some "regression" ∧ TaqoReport = RegressionReport ∧
     [QueriesFrom (Some "yb.json"); PyNone] = v1_v2_inputs taqo_args) ∨
  (type taqo_args = Some "regression_xls" ∧ TaqoReport = RegressionXlsReport ∧
     [QueriesFrom (Some "yb.json"); PyNone] = v1_v2_inputs taqo_args) ∨
  (type taqo_args = Some "comparison" ∧ TaqoReport = ComparisonReport ∧
     [QueriesFrom (Some "yb.json"); PyNone] = yb_pg_inputs taqo_args) ∨
  (type taqo_args = Some "selectivity" ∧ TaqoReport = SelectivityReport ∧
     [QueriesFrom (Some "yb.json"); PyNone] = selectivity_inputs taqo_args).
Proof.
  apply (report_inputs quiet taqo_args TaqoReport [QueriesFrom (Some "yb.json"); PyNone]).
  - reflexivity.
  - apply (bool_decide_unpack _). vm_compute. exact I.
Defined.

End MainRuns.

(** ** Further properties of the DDL step selector *)

Section ParseDdlsMore.
Import Runner.

Lemma elem_of_parse_ddls_str_in (s : string) (d : DDLStep) :
  d ∈ parse_ddls s ↔ str_in (token d) s = true.
Proof.
  rewrite elem_of_parse_ddls. split; [tauto|]. intros H. split; [|done].
  intros ->. by rewrite none_has_no_token in H.
Qed.

Lemma prefix_empty (t : string) : t ≠ "" → String.prefix t "" = false.
Proof. by destruct t. Qed.

Lemma prefix_app_sep (c : ascii) (t a b : string) :
  has_char c t = false →
  String.prefix t (a +:+ String c b) = String.prefix t a.
Proof.
  revert a. induction t as [|x t IH]; intros a Ht.
  - by destruct a.
  - simpl in Ht. destruct (Ascii.ascii_dec x c) as [|Hne]; [done|].
    destruct a as [|y a]; simpl.
    + by destruct (Ascii.ascii_dec x c).
    + destruct (Ascii.ascii_dec x y); [by apply IH|done].
Qed.

Lemma str_in_app_sep (c : ascii) (t a b : string) :
  has_char c t = false → t ≠ "" →
  str_in t (a +:+ String c b) = str_in t a || str_in t b.
Proof.
  intros Hc Ht. induction a as [|y a IH].
  - change ("" +:+ String c b) with (String c b). cbn [str_in].
    rewrite (prefix_app_sep c t "" b Hc : String.prefix t (String c b) = _).
    by rewrite prefix_empty.
  - change (String y a +:+ String c b) with (String y (a +:+ String c b)).
    cbn [str_in]. rewrite IH.
    rewrite (prefix_app_sep c t (String y a) b Hc : String.prefix t (String y (a +:+ String c b)) = _).
    by rewrite orb_assoc.
Qed.

Lemma token_plain (d : DDLStep) : has_char "," (token d) = false ∧ token d ≠ "".
Proof. by destruct d. Qed.

(** Selections separated by a comma add up: the steps selected by
    [a,b] are those selected by [a] together with those selected by [b].
    So the order of the parts does not matter, and a part that is "none"
    or unknown adds nothing and removes nothing. *)
Theorem parse_ddls_comma (a b : string) :
  parse_ddls (a +:+ "," +:+ b) = parse_ddls a ∪ parse_ddls b.
Proof.
  apply set_eq. intros d.
  rewrite elem_of_union, !elem_of_parse_ddls_str_in.
  destruct (token_plain d) as [Hc Ht].
  change (a +:+ "," +:+ b) with (a +:+ String "," b).
  rewrite (str_in_app_sep "," (token d) a b Hc Ht). apply orb_true_iff.
Qed.

Lemma append_assoc (a b c : string) : (a +:+ b) +:+ c = a +:+ (b +:+ c).
Proof.
  induction a as [|x a IH]; [done|].
  change (String x ((a +:+ b) +:+ c) = String x (a +:+ (b +:+ c))). by f_equal.
Qed.

Lemma occurs_in_trans (t s s' : string) :
  occurs_in t s → occurs_in s s' → occurs_in t s'.
Proof.
  intros (p1 & q1 & ->) (p2 & q2 & ->).
  exists (p2 +:+ p1), (q1 +:+ q2).
  by rewrite !append_assoc.
Qed.

(** More text never selects fewer steps: when [s] occurs in [s'], every
    step selected by [s] is selected by [s'].  The literal "none" switches
    everything off only when it is the whole argument. *)
Theorem parse_ddls_monotone (s s' : string) :
  occurs_in s s' → parse_ddls s ⊆ parse_ddls s'.
Proof.
  intros Hs d. rewrite !elem_of_parse_ddls_str_in, !str_in_occurs.
  intros Hd. by apply (occurs_in_trans _ s).
Qed.

Lemma parse_ddls_monotone_witness :
  parse_ddls "create" ⊆ parse_ddls "none,create".
Proof.
  apply (parse_ddls_monotone "create" "none,create").
  by exists "none,", "".
Defined.

End ParseDdlsMore.
